(** * The upload store and the canvas-insertion policy of [src/index.js]

    The application wraps a canvas editor.  Its own logic is the
    [uploadsManager] singleton (a listener-notified list of uploaded images),
    the sizing rule of [addImageToCanvas], and the file-name guard of
    [handleDownload].  This file embeds those three pieces and proves what the
    specification says about them.

    Conventions of the embedding:
    - a JS number is a [num] with the operations of [NumberOps]; the instance
      [Binary64] is the IEEE 754 double the engine computes with (Rocq's
      primitive floats); what is proved of a size is proved of these doubles,
      from the library's specification of their operations;
    - a JS array that is shared by reference lives in a heap ([gmap] from
      locations to contents), so that handing out [this.uploads] and later
      replacing it are distinguishable from mutating it;
    - an [async] function returns the state it leaves behind together with a
      [Completion] telling whether its body ran to the end, threw, or is still
      parked on an [await] that nothing will ever resume. *)

From Stdlib Require Import ZArith QArith Qpower Qabs Floats Uint63 Lia Lqa.
From Stdlib Require Import String Ascii.
From stdpp Require Import base gmap list.

Local Open Scope Z_scope.

(** ** JavaScript values shared by the three components *)

Module JS.

(** A string is a sequence of UTF-16 code units. *)
Definition JSString : Type := list N.

(** The code units of an ASCII literal of the source. *)
Definition js (s : string) : JSString :=
  List.map N_of_ascii (list_ascii_of_string s).

Inductive JsError : Type :=
| TypeError                       (* property read on [undefined] *)
| Failure (reason : JSString).    (* any other thrown or rejected value *)

(** The three states of a promise at the moment it is awaited for good. *)
Inductive Promise (A : Type) : Type :=
| Fulfilled (a : A)
| Rejected (e : JsError)
| Pending.                        (* never settled *)
Arguments Fulfilled {A} a.
Arguments Rejected {A} e.
Arguments Pending {A}.

Inductive Completion : Type :=
| Returned                        (* the body ran to its end *)
| Threw (e : JsError)             (* an exception left the function *)
| Suspended.                      (* parked on an [await] for ever *)

(** [a === b] on the values used as upload ids. *)
Class StrictEq (A : Type) := strict_eq : A -> A -> bool.

(** ECMAScript's [WhiteSpace] and [LineTerminator] code points, the ones
    [String.prototype.trim] strips. *)
Definition isWhiteSpace (c : N) : bool :=
  (N.eqb c 9 || N.eqb c 10 || N.eqb c 11 || N.eqb c 12 || N.eqb c 13
   || N.eqb c 32 || N.eqb c 160 || N.eqb c 5760
   || (N.leb 8192 c && N.leb c 8202)
   || N.eqb c 8232 || N.eqb c 8233 || N.eqb c 8239 || N.eqb c 8287
   || N.eqb c 12288 || N.eqb c 65279)%bool.

Fixpoint trimStart (s : JSString) : JSString :=
  match s with
  | c :: rest => if isWhiteSpace c then trimStart rest else s
  | [] => []
  end.

Definition trimEnd (s : JSString) : JSString := rev (trimStart (rev s)).

Definition trim (s : JSString) : JSString := trimEnd (trimStart s).

(** [!s] for a string: only the empty string is falsy. *)
Definition falsy (s : JSString) : bool :=
  match s with [] => true | _ => false end.

End JS.
Import JS.

(** ** Numbers *)

Module Num.

(** The number operations [addImageToCanvas] uses. *)
Class NumberOps (num : Type) := {
  of_int : Z -> num;              (* an integer-valued property read as a number *)
  gt : num -> num -> bool;        (* [a > b] *)
  div : num -> num -> num;        (* [a / b] *)
  mul : num -> num -> num;        (* [a * b] *)
  Math_min : num -> num -> num    (* [Math.min(a, b)] *)
}.

(** [Math.min] on doubles: NaN is contagious, and -0 is below +0. *)
Definition min64 (a b : float) : float :=
  if (PrimFloat.is_nan a || PrimFloat.is_nan b)%bool then PrimFloat.nan
  else if (PrimFloat.is_zero a && PrimFloat.is_zero b
           && PrimFloat.get_sign b)%bool then b
  else if PrimFloat.ltb b a then b
  else a.

(** IEEE 754 binary64, what the engine runs.  [of_int] is exact below 2^53;
    the integers read here are [unsigned long] properties. *)
#[export] Instance Binary64 : NumberOps float := {
  of_int z := PrimFloat.of_uint63 (Uint63.of_Z z);
  gt a b := PrimFloat.ltb b a;
  div := PrimFloat.div;
  mul := PrimFloat.mul;
  Math_min := min64
}.

#[export] Instance float_strict_eq : StrictEq float := PrimFloat.eqb.

End Num.
Import Num.

(** ** Doubles as rationals, and rounding to nearest

    What the sizing rule computes is settled by the IEEE 754 operations,
    which the library specifies on [spec_float] ([Prim2SF] of a product is
    [SFmul] of the two, and so on).  The definitions below say what those
    operations do to the rational a double stands for. *)

Module Rounding.

(** The part of a quotient that a shifted mantissa has dropped: [m] is the
    integer part of [N / D], and the round and sticky bits [r], [s] tell
    where the remainder stands against half of [D]. *)
Definition located (N D m : Z) (r s : bool) : Prop :=
  0 < D /\ 0 <= N /\ m = N / D
  /\ match r, s with
     | false, false => N mod D = 0
     | false, true => 0 < 2 * (N mod D) < D
     | true, false => 2 * (N mod D) = D
     | true, true => D < 2 * (N mod D)
     end.

Definition located_rec (N D : Z) (mrs : shr_record) : Prop :=
  located N D (shr_m mrs) (shr_r mrs) (shr_s mrs).

(** The rational a finite number stands for.  Infinities and NaN stand for
    none and are given 0; the statements below that speak of a value also
    say that it is positive. *)
Definition SFval (x : spec_float) : Q :=
  match x with
  | S754_finite s m e =>
      (if s then -1 else 1) * inject_Z (Z.pos m) * 2 ^ e
  | _ => 0
  end%Q.

(** The rational a double stands for. *)
Definition value (x : float) : Q := SFval (Prim2SF x).

(** A positive normal double. *)
Definition normal (x : spec_float) : Prop :=
  exists m e,
    x = S754_finite false m e
    /\ 2 ^ 52 <= Z.pos m < 2 ^ 53
    /\ -1074 <= e <= 971.

(** [z] is the rational [P] rounded to 53 bits, to nearest: it is [k]
    units of [2 ^ e], the binade of [P], at most half a unit away. *)
Definition rounded (P : Q) (z : spec_float) : Prop :=
  normal z
  /\ exists k e : Z,
       (SFval z == inject_Z k * 2 ^ e)%Q
       /\ k <= 2 ^ 53
       /\ (inject_Z (2 ^ 52) * 2 ^ e <= P)%Q
       /\ (P < inject_Z (2 ^ 53) * 2 ^ e)%Q
       /\ (inject_Z k * 2 ^ e - P <= 2 ^ e * (1 # 2))%Q
       /\ (P - inject_Z k * 2 ^ e <= 2 ^ e * (1 # 2))%Q.

End Rounding.
Import Rounding.

(** ** The uploads manager ([uploadsManager], lines 37-65) *)

Module Uploads.

(** A callback is known by its identity: [l !== listener] compares
    references.  What a callback does when called is recorded, not run. *)
Definition Listener : Type := nat.

Section Manager.
Context {Id : Type} `{StrictEq Id}.

(** The object literal built by [reader.onload]. *)
Record UploadRecord : Type := {
  id : Id;
  name : JSString;
  url : JSString
}.

(** What [addUpload] may be handed: nothing checks that it is a record. *)
Inductive Upload : Type :=
| Undefined
| Obj (r : UploadRecord).

(** [heap] holds every array ever bound to [this.uploads]; [uploads] is
    the reference currently bound; [calls] logs each listener invocation,
    oldest first, with the array reference the listener was passed. *)
Record UploadsManager : Type := {
  heap : gmap positive (list Upload);
  uploads : positive;
  listeners : list Listener;
  calls : list (Listener * positive)
}.

(** [uploads: [], listeners: []] *)
Definition initial : UploadsManager :=
  {| heap := {[ 1%positive := [] ]};
     uploads := 1%positive;
     listeners := [];
     calls := [] |}.

(** The contents of the array behind a reference. *)
Definition deref (m : UploadsManager) (l : positive) : list Upload :=
  heap m !!! l.

(** [getUploads() { return this.uploads; }]: the reference itself. *)
Definition getUploads (m : UploadsManager) : positive := uploads m.

(** The records [getUploads()] shows to its caller. *)
Definition current (m : UploadsManager) : list Upload :=
  deref m (getUploads m).

(** [this.uploads = arr] for a freshly built array [arr]. *)
Definition rebind (arr : list Upload) (m : UploadsManager) : UploadsManager :=
  let l := fresh (dom (heap m)) in
  {| heap := <[ l := arr ]> (heap m);
     uploads := l;
     listeners := listeners m;
     calls := calls m |}.

(** [this.listeners.forEach(listener => listener(this.uploads))] *)
Definition notifyListeners (m : UploadsManager) : UploadsManager :=
  {| heap := heap m;
     uploads := uploads m;
     listeners := listeners m;
     calls := calls m ++ List.map (fun l => (l, uploads m)) (listeners m) |}.

(** [this.uploads = [...this.uploads, upload]; this.notifyListeners();] *)
Definition addUpload (upload : Upload) (m : UploadsManager) : UploadsManager :=
  notifyListeners (rebind (current m ++ [upload]) m).

(** The callback [upload => upload.id !== id]; reading [.id] of
    [undefined] throws. *)
Definition keeps (i : Id) (upload : Upload) : JsError + bool :=
  match upload with
  | Undefined => inl TypeError
  | Obj r => inr (negb (strict_eq (id r) i))
  end.

(** [Array.prototype.filter] with a callback that may throw: elements are
    visited in order and the first exception ends the call. *)
Fixpoint filterE {A : Type} (p : A -> JsError + bool) (arr : list A)
  : JsError + list A :=
  match arr with
  | [] => inr []
  | x :: rest =>
      match p x with
      | inl e => inl e
      | inr b =>
          match filterE p rest with
          | inl e => inl e
          | inr kept => inr (if b then x :: kept else kept)
          end
      end
  end.

(** [this.uploads = this.uploads.filter(...); this.notifyListeners();]
    When the filter throws, the assignment and the notification are
    skipped. *)
Definition deleteUpload (i : Id) (m : UploadsManager)
  : UploadsManager * Completion :=
  match filterE (keeps i) (current m) with
  | inl e => (m, Threw e)
  | inr kept => (notifyListeners (rebind kept m), Returned)
  end.

(** [this.listeners.push(listener)] *)
Definition subscribe (listener : Listener) (m : UploadsManager) : UploadsManager :=
  {| heap := heap m;
     uploads := uploads m;
     listeners := listeners m ++ [listener];
     calls := calls m |}.

(** The function [subscribe] returns:
    [this.listeners = this.listeners.filter(l => l !== listener)]. *)
Definition unsubscribe (listener : Listener) (m : UploadsManager) : UploadsManager :=
  {| heap := heap m;
     uploads := uploads m;
     listeners := List.filter (fun l => negb (Nat.eqb l listener)) (listeners m);
     calls := calls m |}.

(** A call made on the manager from outside. *)
Inductive Call : Type :=
| CallAdd (upload : Upload)
| CallDelete (i : Id)
| CallSubscribe (listener : Listener)
| CallUnsubscribe (listener : Listener).

Definition perform (c : Call) (m : UploadsManager) : UploadsManager * Completion :=
  match c with
  | CallAdd upload => (addUpload upload m, Returned)
  | CallDelete i => deleteUpload i m
  | CallSubscribe l => (subscribe l m, Returned)
  | CallUnsubscribe l => (unsubscribe l m, Returned)
  end.

(** A script of calls, each made whatever the previous one did (an
    exception in an event handler does not stop later events). *)
Fixpoint performAll (cs : list Call) (m : UploadsManager) : UploadsManager :=
  match cs with
  | [] => m
  | c :: rest => performAll rest (fst (perform c m))
  end.

(** The two mutations of the store's contract, on records. *)
Inductive Op : Type :=
| Add (r : UploadRecord)
| Remove (i : Id).

Definition call_of (o : Op) : Call :=
  match o with
  | Add r => CallAdd (Obj r)
  | Remove i => CallDelete i
  end.

(** Is the id [i] the target of a removal among [ops]? *)
Definition removed_by (i : Id) (ops : list Op) : bool :=
  existsb (fun o => match o with Remove j => strict_eq i j | Add _ => false end) ops.

(** The contract's expectation for a script of adds and removes: the
    records added and not removed afterwards, in insertion order. *)
Fixpoint surviving (ops : list Op) : list UploadRecord :=
  match ops with
  | [] => []
  | Add r :: rest =>
      if removed_by (id r) rest then surviving rest else r :: surviving rest
  | Remove _ :: rest => surviving rest
  end.

(** Every element of the array is a record. *)
Definition all_records (arr : list Upload) : bool :=
  forallb (fun u => match u with Obj _ => true | Undefined => false end) arr.

(** The id of a record of the array matches [i]. *)
Definition has_id (i : Id) (arr : list Upload) : bool :=
  existsb (fun u => match u with Obj r => strict_eq (id r) i | Undefined => false end) arr.

(** No record of the array has the id of a record further on. *)
Fixpoint unique_ids (arr : list Upload) : bool :=
  match arr with
  | [] => true
  | Undefined :: rest => unique_ids rest
  | Obj r :: rest =>
      forallb (fun u => match u with
                        | Obj r' => negb (strict_eq (id r) (id r'))
                        | Undefined => true
                        end) rest
      && unique_ids rest
  end.

(** The call hands the store a record wherever it expects one. *)
Definition passes_record (c : Call) : bool :=
  match c with
  | CallAdd Undefined => false
  | _ => true
  end.

(** What the contract says the collection holds after a mutation. *)
Definition mutated (o : Op) (arr : list Upload) : list Upload :=
  match o with
  | Add r => arr ++ [Obj r]
  | Remove i =>
      List.filter (fun u => match u with
                            | Obj r => negb (strict_eq (id r) i)
                            | Undefined => true
                            end) arr
  end.

(** The mutation does not bring in an id the array already has. *)
Definition fresh_for (o : Op) (arr : list Upload) : bool :=
  match o with
  | Add r => negb (has_id (id r) arr)
  | Remove _ => true
  end.

(** How often the log shows the listener [l] being called. *)
Definition times_called (l : Listener) (log : list (Listener * positive)) : nat :=
  length (List.filter (fun c => Nat.eqb (fst c) l) log).

(** How many subscriptions of [l] are in force. *)
Definition subscriptions (l : Listener) (m : UploadsManager) : nat :=
  length (List.filter (fun l' => Nat.eqb l' l) (listeners m)).

(** The reference [l] has been given away: [getUploads()] returns it, or
    some listener was called with it. *)
Definition handed_out (m : UploadsManager) (l : positive) : Prop :=
  l = getUploads m \/ exists f, In (f, l) (calls m).

(** Every reference given away points into the heap. *)
Definition allocated (m : UploadsManager) : Prop :=
  forall l, handed_out m l -> is_Some (heap m !! l).

End Manager.

Arguments UploadRecord Id : clear implicits.
Arguments Upload Id : clear implicits.
Arguments UploadsManager Id : clear implicits.
Arguments Call Id : clear implicits.
Arguments Op Id : clear implicits.

End Uploads.
Import Uploads.

(** ** Placing an upload on the canvas (lines 22-34 and 103-140) *)

Module Canvas.

(** [img.width] and [img.height]: [unsigned long] attributes. *)
Record Dimensions : Type := {
  width : Z;
  height : Z
}.

(** What the browser does once [img.src = dataUrl] is assigned: it fires
    [load] with the intrinsic size, or it fires [error]. *)
Inductive ImageEvent : Type :=
| LoadEvent (w h : Z)
| ErrorEvent.

(** [getImageDimensions]: the executor takes [resolve] only and installs
    [img.onload] only, so an [error] event settles nothing. *)
Definition getImageDimensions (browser : JSString -> ImageEvent) (dataUrl : JSString)
  : Promise Dimensions :=
  match browser dataUrl with
  | LoadEvent w h => Fulfilled {| width := w; height := h |}
  | ErrorEvent => Pending
  end.

Section Policy.
Context {num : Type} `{NumberOps num}.

(** The descriptor handed to [store.activePage.addElement]. *)
Record Element : Type := {
  type : JSString;
  src : JSString;
  elem_width : num;
  elem_height : num;
  draggable : bool;
  resizable : bool;
  alwaysOnTop : bool
}.

(** The page as this component sees it: the elements it has asked the
    editor to add, the argument of its last call of [store.selectElements],
    the console, and the uploads manager it shares.  What the editor makes of
    a selection request is the editor's business and is not modelled. *)
Record Page : Type := {
  elements : list Element;
  selectElements_arg : list Element;
  console : list (JSString * JsError);
  manager : UploadsManager float
}.

Definition maxWidth : num := of_int 600.
Definition maxHeight : num := of_int 400.

(** Lines 109-121: the size the element is created with. *)
Definition scaled (dimensions : Dimensions) : num * num :=
  let width0 := of_int (width dimensions) in
  let height0 := of_int (height dimensions) in
  if (gt width0 maxWidth || gt height0 maxHeight)%bool then
    let ratio := Math_min (div maxWidth width0) (div maxHeight height0) in
    let width1 := mul width0 ratio in
    let height1 := mul height0 ratio in
    (width1, height1)
  else (width0, height0).

(** [store.activePage.addElement({...})] followed by
    [store.selectElements([element])], on the path where the editor accepts
    the descriptor and neither call throws. *)
Definition place (imageUrl : JSString) (size : num * num) (p : Page) : Page :=
  let element :=
    {| type := js "image";
       src := imageUrl;
       elem_width := fst size;
       elem_height := snd size;
       draggable := true;
       resizable := true;
       alwaysOnTop := false |} in
  {| elements := elements p ++ [element];
     selectElements_arg := [element];
     console := console p;
     manager := manager p |}.

(** [console.error('Error adding image to canvas:', error)] *)
Definition logError (e : JsError) (p : Page) : Page :=
  {| elements := elements p;
     selectElements_arg := selectElements_arg p;
     console := console p ++ [(js "Error adding image to canvas:", e)];
     manager := manager p |}.

(** [addImageToCanvas]: the [await] either resumes the body with the
    dimensions, throws into the [catch], or never resumes. *)
Definition addImageToCanvas (browser : JSString -> ImageEvent)
    (imageUrl : JSString) (p : Page) : Page * Completion :=
  match getImageDimensions browser imageUrl with
  | Fulfilled dimensions => (place imageUrl (scaled dimensions) p, Returned)
  | Rejected error => (logError error p, Returned)
  | Pending => (p, Suspended)
  end.

(** The sizing rule as the specification words it, on numbers [w] and
    [h]: scale both by [min(maxWidth/w, maxHeight/h)] when either bound is
    exceeded, otherwise keep them. *)
Definition policy_target (w h : num) : num * num :=
  if (gt w (of_int 600) || gt h (of_int 400))%bool then
    let r := Math_min (div (of_int 600) w) (div (of_int 400) h) in
    (mul w r, mul h r)
  else (w, h).

End Policy.

Arguments Element num : clear implicits.
Arguments Page num : clear implicits.

(** [reader.onload] of [handleFileUpload] (lines 88-97), given what
    [Date.now()] and [Math.random()] return during the call. *)
Definition onload (now : Z) (random : float) (fileName dataUrl : JSString)
    (m : UploadsManager float) : UploadsManager float :=
  addUpload
    (Obj {| id := PrimFloat.add (of_int now) random;
            name := fileName;
            url := dataUrl |})
    m.

End Canvas.
Import Canvas.

(** ** The download button ([handleDownload], lines 259-279) *)

Module Toolbar.

(** The [<a>] element built for the download. *)
Record Anchor : Type := {
  href : JSString;
  download : JSString
}.

(** What the handler can touch: the alerts shown, the elements
    [document.createElement] has returned, the children of
    [document.body], the downloads started by [link.click()], the console
    and the [isDownloading] flag. *)
Record Window : Type := {
  alerts : list JSString;
  created : list Anchor;
  body : list Anchor;
  downloads : list Anchor;
  errors : list (JSString * JsError);
  isDownloading : bool
}.

Definition alert (msg : JSString) (w : Window) : Window :=
  {| alerts := alerts w ++ [msg];
     created := created w;
     body := body w;
     downloads := downloads w;
     errors := errors w;
     isDownloading := isDownloading w |}.

Definition setIsDownloading (b : bool) (w : Window) : Window :=
  {| alerts := alerts w;
     created := created w;
     body := body w;
     downloads := downloads w;
     errors := errors w;
     isDownloading := b |}.

(** Lines 268-273: create the link, attach it, click it, detach it. *)
Definition clickLink (link : Anchor) (w : Window) : Window :=
  {| alerts := alerts w;
     created := created w ++ [link];
     body := body w;
     downloads := downloads w ++ [link];
     errors := errors w;
     isDownloading := isDownloading w |}.

(** [console.error('Download failed:', error)] *)
Definition logFailure (e : JsError) (w : Window) : Window :=
  {| alerts := alerts w;
     created := created w;
     body := body w;
     downloads := downloads w;
     errors := errors w ++ [(js "Download failed:", e)];
     isDownloading := isDownloading w |}.

(** [handleDownload], given the current [imageName] and how the promise
    of [store.toDataURL()] settles. *)
Definition handleDownload (imageName : JSString) (toDataURL : Promise JSString)
    (w : Window) : Window * Completion :=
  if falsy (trim imageName) then
    (alert (js "Please enter an image name") w, Returned)
  else
    let w1 := setIsDownloading true w in
    match toDataURL with
    | Fulfilled dataUrl =>
        let link := {| href := dataUrl;
                       download := trim imageName ++ js ".png" |} in
        (setIsDownloading false (clickLink link w1), Returned)
    | Rejected error =>
        (setIsDownloading false (logFailure error w1), Returned)
    | Pending => (w1, Suspended)
    end.

End Toolbar.
Import Toolbar.

(** ** The uploads panel ([CustomUploadSection], lines 68-100) *)

Module UploadPanel.

(** [const [uploads, setUploads] = useState(uploadsManager.getUploads())]
    with the listener [newUploads => setUploads(newUploads)]: the array the
    panel renders is the one read when it mounted, replaced by the argument of
    every later call of its listener.  Mounting reads and subscribes in one
    go; each mount makes a new closure [f]. *)
Definition rendered (f : Listener) (atMount : positive)
    (log : list (Listener * positive)) : positive :=
  fold_left (fun shown c => if Nat.eqb (fst c) f then snd c else shown)
    log atMount.

(** One [FileReader] started by [handleFileUpload] for [file], once it has
    settled: [load] with the data URL, at a moment when [Date.now()] and
    [Math.random()] return [now] and [random], or [error]. *)
Inductive ReadEvent : Type :=
| ReadLoaded (fileName result : JSString) (now : Z) (random : float)
| ReadFailed (fileName : JSString).

(** The record [reader.onload] builds (lines 92-96). *)
Definition record_of (fileName result : JSString) (now : Z) (random : float)
  : UploadRecord float :=
  {| id := PrimFloat.add (of_int now) random;
     name := fileName;
     url := result |}.

(** What one settled reader does to the store: [reader.onload] adds the
    upload; no [reader.onerror] is installed. *)
Definition settle (e : ReadEvent) (m : UploadsManager float) : UploadsManager float :=
  match e with
  | ReadLoaded fileName result now random => onload now random fileName result m
  | ReadFailed _ => m
  end.

(** [handleFileUpload] for a selection whose readers settle in the order
    [events]; with no file selected ([!files.length]) it returns at once. *)
Definition handleFileUpload (events : list ReadEvent) (m : UploadsManager float)
  : UploadsManager float :=
  match events with
  | [] => m
  | _ => fold_left (fun m' e => settle e m') events m
  end.

(** The records a batch of settled readers contributes, in settling order. *)
Fixpoint loaded (events : list ReadEvent) : list (UploadRecord float) :=
  match events with
  | [] => []
  | ReadLoaded fileName result now random :: rest =>
      record_of fileName result now random :: loaded rest
  | ReadFailed _ :: rest => loaded rest
  end.

End UploadPanel.

(** ** The side panel sections ([App], lines 357-369) *)

Module SidePanel.

(** The components a section definition can point to: one of the
    library's own, or one of the two written here. *)
Inductive Component : Type :=
| Library (k : nat)
| UploadsTab
| CustomUploadSection.

Record SectionDef : Type := {
  name : JSString;
  Tab : Component;
  Panel : Component
}.

(** Lines 237-252. *)
Definition CustomUploadSectionDefinition : SectionDef :=
  {| name := js "upload"; Tab := UploadsTab; Panel := CustomUploadSection |}.

Definition hidden : list JSString :=
  [js "templates"; js "text"; js "elements"; js "background"; js "photos"].

(** [xs.includes(x)] on strings. *)
Definition includes (xs : list JSString) (x : JSString) : bool :=
  existsb (fun y => bool_decide (y = x)) xs.

(** [DEFAULT_SECTIONS.filter(section => !hidden.includes(section.name))] *)
Definition filteredSections (DEFAULT_SECTIONS : list SectionDef) : list SectionDef :=
  List.filter (fun section => negb (includes hidden (name section)))
    DEFAULT_SECTIONS.

(** [filteredSections.map(section => section.name === 'upload'
      ? CustomUploadSectionDefinition : section)] *)
Definition customSections (DEFAULT_SECTIONS : list SectionDef) : list SectionDef :=
  List.map (fun section =>
              if bool_decide (name section = js "upload")
              then CustomUploadSectionDefinition
              else section)
    (filteredSections DEFAULT_SECTIONS).

End SidePanel.

(** ** Concrete states used to exercise the statements *)

Module Samples.

Definition photo : UploadRecord float :=
  {| id := 1700000000000.25%float;
     name := js "photo.png";
     url := js "data:image/png;base64,iVBORw0KGgo=" |}.

Definition logo : UploadRecord float :=
  {| id := 1700000000007.5%float;
     name := js "logo.png";
     url := js "data:image/png;base64,R0lGODlh" |}.

(** One panel subscribed, then two files uploaded. *)
Definition session : UploadsManager float :=
  addUpload (Obj logo) (addUpload (Obj photo) (subscribe 0%nat initial)).

Definition emptyPage : Page float :=
  {| elements := []; selectElements_arg := []; console := [];
     manager := session |}.

Definition idleWindow : Window :=
  {| alerts := []; created := []; body := []; downloads := [];
     errors := []; isDownloading := false |}.

End Samples.
Import Samples.

(** ** Kinds of calls in a script *)

Module Scripts.

Section Calls.
Context {Id : Type}.

(** [addUpload] and [deleteUpload], the calls that rebind [this.uploads]. *)
Definition is_mutation (c : Call Id) : bool :=
  match c with
  | CallAdd _ | CallDelete _ => true
  | CallSubscribe _ | CallUnsubscribe _ => false
  end.

(** The call subscribes the listener [f]. *)
Definition subscribes (f : Listener) (c : Call Id) : bool :=
  match c with
  | CallSubscribe g => Nat.eqb g f
  | _ => false
  end.

(** The call is the unsubscribe closure of the listener [f]. *)
Definition unsubscribes (f : Listener) (c : Call Id) : bool :=
  match c with
  | CallUnsubscribe g => Nat.eqb g f
  | _ => false
  end.

End Calls.

End Scripts.
Import Scripts.

Module Scenarios.

(** The panel mounted as listener 0 on an empty store. *)
Definition mounted : UploadsManager float := subscribe 0%nat initial.

(** A store into which [addUpload()] was once called without a record. *)
Definition poisoned : UploadsManager float :=
  addUpload (Obj logo) (addUpload Undefined (addUpload (Obj photo) mounted)).

(** Three readers: the second fails, the third settles before the first. *)
Definition batch : list UploadPanel.ReadEvent :=
  [ UploadPanel.ReadLoaded (js "c.png") (js "data:image/png;base64,Qw==")
      1700000000003 0.25%float;
    UploadPanel.ReadFailed (js "b.png");
    UploadPanel.ReadLoaded (js "a.png") (js "data:image/png;base64,QQ==")
      1700000000004 0.75%float ].

(** A canvas that already holds one element. *)
Definition busyPage : Page float :=
  fst (addImageToCanvas (fun _ => LoadEvent 300 200) (url photo) emptyPage).

(** Sections in the style of the library's defaults. *)
Definition librarySections : list SidePanel.SectionDef :=
  List.map (fun kn => {| SidePanel.name := js (snd kn);
                         SidePanel.Tab := SidePanel.Library (fst kn);
                         SidePanel.Panel := SidePanel.Library (fst kn) |})
    [ (0%nat, "templates"%string); (1%nat, "text"%string);
      (2%nat, "photos"%string); (3%nat, "elements"%string);
      (4%nat, "upload"%string); (5%nat, "background"%string);
      (6%nat, "layers"%string); (7%nat, "size"%string) ].

End Scenarios.
Import Scenarios.

(** * Properties *)

(** ** The uploads manager *)

Section ManagerFacts.
Context {Id : Type} `{StrictEq Id}.
Implicit Types (m : UploadsManager Id) (u : Upload Id) (r : UploadRecord Id).
Implicit Types (arr : list (Upload Id)) (rs : list (UploadRecord Id)) (i : Id).

(** *** Reading the store after each primitive step *)

Lemma current_rebind arr m : current (rebind arr m) = arr.
Proof.
  unfold current, deref, getUploads, rebind; cbn.
  apply lookup_total_insert_eq.
Qed.

Lemma current_notifyListeners m : current (notifyListeners m) = current m.
Proof. reflexivity. Qed.

Lemma current_addUpload u m : current (addUpload u m) = current m ++ [u].
Proof.
  unfold addUpload. rewrite current_notifyListeners. apply current_rebind.
Qed.

Lemma calls_addUpload u m :
  calls (addUpload u m)
  = calls m ++ List.map (fun l => (l, getUploads (addUpload u m))) (listeners m).
Proof. reflexivity. Qed.

(** On an array of records the filter never throws, and it is the plain
    filter on the records. *)
Lemma filterE_records i rs :
  filterE (keeps i) (List.map Obj rs)
  = inr (List.map Obj (List.filter (fun r => negb (strict_eq (id r) i)) rs)).
Proof.
  induction rs as [|r rs IH]; cbn; [reflexivity|].
  rewrite IH. destruct (strict_eq (id r) i); reflexivity.
Qed.

(** An array of records is the image of a list of records. *)
Lemma all_records_inv arr :
  all_records arr = true -> exists rs, arr = List.map Obj rs.
Proof.
  induction arr as [|u arr IH]; cbn; intros Hall.
  - exists []. reflexivity.
  - destruct u as [|r]; [discriminate|].
    destruct (IH Hall) as [rs ->]. exists (r :: rs). reflexivity.
Qed.

Lemma all_records_map rs : all_records (List.map (@Obj Id) rs) = true.
Proof. induction rs as [|r rs IH]; cbn; [reflexivity | exact IH]. Qed.

Lemma deleteUpload_records i m rs :
  current m = List.map Obj rs ->
  deleteUpload i m
  = (notifyListeners
       (rebind (List.map Obj (List.filter (fun r => negb (strict_eq (id r) i)) rs)) m),
     Returned).
Proof.
  intros Hcur. unfold deleteUpload. rewrite Hcur, filterE_records. reflexivity.
Qed.

Lemma current_deleteUpload_records i m rs :
  current m = List.map Obj rs ->
  current (fst (deleteUpload i m))
  = List.map Obj (List.filter (fun r => negb (strict_eq (id r) i)) rs).
Proof.
  intros Hcur. rewrite (deleteUpload_records _ _ _ Hcur). cbn [fst].
  rewrite current_notifyListeners. apply current_rebind.
Qed.

(** When the filter throws, nothing has been assigned and nobody called. *)
Lemma deleteUpload_threw i m e m' :
  deleteUpload i m = (m', Threw e) -> m' = m.
Proof.
  unfold deleteUpload. destruct (filterE (keeps i) (current m)); congruence.
Qed.

(** An id that matches no record is kept by the filter on every record. *)
Lemma filter_absent i rs :
  has_id i (List.map Obj rs) = false ->
  List.filter (fun r => negb (strict_eq (id r) i)) rs = rs.
Proof.
  induction rs as [|r rs IH]; cbn; [reflexivity|].
  intros Habs. apply orb_false_iff in Habs as [Hr Hrs].
  rewrite Hr; cbn. f_equal. exact (IH Hrs).
Qed.

Lemma filter_filter {A : Type} (p q : A -> bool) (xs : list A) :
  List.filter q (List.filter p xs) = List.filter (fun x => p x && q x) xs.
Proof.
  induction xs as [|x xs IH]; cbn; [reflexivity|].
  destruct (p x); cbn; [destruct (q x)|]; rewrite IH; reflexivity.
Qed.

Lemma filter_ext_bool {A : Type} (p q : A -> bool) (xs : list A) :
  (forall x, p x = q x) -> List.filter p xs = List.filter q xs.
Proof.
  intros Hpq. induction xs as [|x xs IH]; cbn; [reflexivity|].
  rewrite Hpq, IH. reflexivity.
Qed.

(** *** Scripts of adds and removes *)

(** From any collection of records [rs], a script leaves the records of
    [rs] that it does not remove, followed by its own survivors. *)
Lemma performAll_records (ops : list (Op Id)) :
  forall m rs,
    current m = List.map Obj rs ->
    current (performAll (List.map call_of ops) m)
    = List.map Obj
        (List.filter (fun r => negb (removed_by (id r) ops)) rs ++ surviving ops).
Proof.
  induction ops as [|o ops IH]; intros m rs Hcur; cbn.
  - rewrite app_nil_r, Hcur. f_equal.
    symmetry. clear. induction rs as [|r rs IHrs]; cbn; congruence.
  - destruct o as [r | i]; cbn.
    + rewrite (IH (addUpload (Obj r) m) (rs ++ [r])).
      2:{ rewrite current_addUpload, Hcur, List.map_app. reflexivity. }
      rewrite List.filter_app; cbn.
      destruct (removed_by (id r) ops); cbn;
        rewrite <- ?app_assoc; reflexivity.
    + rewrite (IH _ _ (current_deleteUpload_records i m rs Hcur)).
      rewrite filter_filter. do 2 f_equal.
      apply filter_ext_bool. intros r. symmetry. apply negb_orb.
Qed.

End ManagerFacts.

Section ManagerInvariants.
Context {Id : Type} `{StrictEq Id}.
Implicit Types (m : UploadsManager Id) (u : Upload Id) (r : UploadRecord Id).
Implicit Types (arr : list (Upload Id)) (c : Call Id) (l : positive).

(** *** Arrays are replaced, never written to *)

Lemma rebind_fresh arr m : heap m !! getUploads (rebind arr m) = None.
Proof.
  unfold getUploads, rebind; cbn.
  apply not_elem_of_dom. apply is_fresh.
Qed.

Lemma heap_rebind arr m l old :
  heap m !! l = Some old -> heap (rebind arr m) !! l = Some old.
Proof.
  intros Hl. unfold rebind; cbn.
  rewrite lookup_insert_ne; [exact Hl|].
  intros <-. pose proof (rebind_fresh arr m) as Hfresh.
  unfold getUploads, rebind in Hfresh; cbn in Hfresh. congruence.
Qed.

Lemma heap_perform c m l old :
  heap m !! l = Some old -> heap (fst (perform c m)) !! l = Some old.
Proof.
  intros Hl. destruct c as [u | i | f | f]; cbn; try exact Hl.
  - apply heap_rebind, Hl.
  - unfold deleteUpload. destruct (filterE (keeps i) (current m)); cbn.
    + exact Hl.
    + apply heap_rebind, Hl.
Qed.

Lemma heap_performAll (cs : list (Call Id)) :
  forall m l old,
    heap m !! l = Some old -> heap (performAll cs m) !! l = Some old.
Proof.
  induction cs as [|c cs IH]; intros m l old Hl; cbn; [exact Hl|].
  apply IH, heap_perform, Hl.
Qed.

(** *** References given away stay allocated *)

Lemma allocated_initial : allocated (@initial Id).
Proof.
  intros l [-> | [f []]]. unfold initial, getUploads; cbn.
  rewrite lookup_singleton_eq. eauto.
Qed.

Lemma allocated_rebind_notify arr m :
  allocated m -> allocated (notifyListeners (rebind arr m)).
Proof.
  intros Hm l Hl.
  assert (Hnew : is_Some (heap (notifyListeners (rebind arr m))
                            !! fresh (dom (heap m)))).
  { cbn. rewrite lookup_insert_eq. eauto. }
  destruct Hl as [-> | [f Hin]]; [exact Hnew|].
  cbn in Hin. apply in_app_or in Hin as [Hold | Hnow].
  - destruct (Hm l) as [old Hl]; [right; eauto|].
    exists old. apply (heap_rebind arr), Hl.
  - apply in_map_iff in Hnow as (f' & Heq & _).
    inversion Heq; subst. exact Hnew.
Qed.

Lemma allocated_perform c m : allocated m -> allocated (fst (perform c m)).
Proof.
  intros Hm. destruct c as [u | i | f | f]; cbn.
  - apply allocated_rebind_notify, Hm.
  - unfold deleteUpload. destruct (filterE (keeps i) (current m)); cbn.
    + exact Hm.
    + apply allocated_rebind_notify, Hm.
  - exact Hm.
  - exact Hm.
Qed.

Lemma allocated_performAll (cs : list (Call Id)) :
  forall m, allocated m -> allocated (performAll cs m).
Proof.
  induction cs as [|c cs IH]; intros m Hm; cbn; [exact Hm|].
  apply IH, allocated_perform, Hm.
Qed.

(** *** The collection holds records as long as records are added *)

Lemma all_records_perform c m :
  passes_record c = true ->
  all_records (current m) = true ->
  all_records (current (fst (perform c m))) = true.
Proof.
  intros Hc Hm. destruct c as [u | i | f | f]; cbn [perform fst].
  - destruct u as [|r]; [discriminate|].
    rewrite current_addUpload. unfold all_records in *.
    rewrite forallb_app, Hm. reflexivity.
  - destruct (all_records_inv _ Hm) as [rs Hrs].
    rewrite (current_deleteUpload_records i m rs Hrs).
    apply all_records_map.
  - exact Hm.
  - exact Hm.
Qed.

Lemma all_records_performAll (cs : list (Call Id)) :
  forall m,
    forallb passes_record cs = true ->
    all_records (current m) = true ->
    all_records (current (performAll cs m)) = true.
Proof.
  induction cs as [|c cs IH]; intros m Hcs Hm; cbn; [exact Hm|].
  cbn in Hcs. apply andb_true_iff in Hcs as [Hc Hcs].
  apply IH; [exact Hcs|]. apply all_records_perform; assumption.
Qed.

(** *** Uniqueness of ids *)

Lemma filterE_forallb (q : Upload Id -> bool) i arr :
  forall kept,
    filterE (keeps i) arr = inr kept ->
    forallb q arr = true -> forallb q kept = true.
Proof.
  induction arr as [|u arr IH]; cbn; intros kept Hf Hq.
  - inversion Hf; reflexivity.
  - destruct (keeps i u) as [e | b]; [discriminate|].
    destruct (filterE (keeps i) arr) as [e | kept']; [discriminate|].
    apply andb_true_iff in Hq as [Hu Harr].
    inversion Hf; subst. specialize (IH kept' eq_refl Harr).
    destruct b; cbn; [rewrite Hu|]; exact IH.
Qed.

Lemma filterE_unique_ids i arr :
  forall kept,
    filterE (keeps i) arr = inr kept ->
    unique_ids arr = true -> unique_ids kept = true.
Proof.
  induction arr as [|u arr IH]; cbn; intros kept Hf Hu.
  - inversion Hf; reflexivity.
  - destruct u as [|r]; cbn in Hf; [discriminate|].
    destruct (filterE (keeps i) arr) as [e | kept'] eqn:Hrest; [discriminate|].
    apply andb_true_iff in Hu as [Hr Harr].
    inversion Hf; subst. specialize (IH kept' eq_refl Harr).
    destruct (negb (strict_eq (id r) i)); cbn; [|exact IH].
    rewrite IH, andb_true_r.
    exact (filterE_forallb _ i arr kept' Hrest Hr).
Qed.

Lemma unique_ids_snoc arr r :
  unique_ids arr = true ->
  has_id (id r) arr = false ->
  unique_ids (arr ++ [Obj r]) = true.
Proof.
  induction arr as [|u arr IH]; cbn; [reflexivity|].
  destruct u as [|r0]; cbn.
  - exact IH.
  - intros Hu Habs.
    apply andb_true_iff in Hu as [Hr0 Harr].
    apply orb_false_iff in Habs as [Hne Habs].
    rewrite (IH Harr Habs), andb_true_r.
    rewrite forallb_app, Hr0; cbn. rewrite Hne. reflexivity.
Qed.

(** *** Counting calls *)

Lemma times_called_app (f : Listener) (log1 log2 : list (Listener * positive)) :
  times_called f (log1 ++ log2) = (times_called f log1 + times_called f log2)%nat.
Proof.
  unfold times_called. rewrite List.filter_app, length_app. reflexivity.
Qed.

Lemma times_called_notify (f : Listener) l (fs : list Listener) :
  times_called f (List.map (fun f' => (f', l)) fs)
  = length (List.filter (fun f' => Nat.eqb f' f) fs).
Proof.
  unfold times_called. induction fs as [|f' fs IH]; cbn; [reflexivity|].
  destruct (Nat.eqb f' f); cbn; rewrite IH; reflexivity.
Qed.

End ManagerInvariants.

(** *** What the specification claims about the store *)

Section ManagerClaims.
Context {Id : Type} `{StrictEq Id}.
Implicit Types (m : UploadsManager Id) (u : Upload Id) (r : UploadRecord Id).
Implicit Types (i : Id) (o : Op Id) (l : positive) (f : Listener).

(** C3.  After any finite script of [addUpload] and [deleteUpload] calls on
    the initially empty store, what [getUploads()] shows is exactly the
    records added and not removed afterwards, in insertion order. *)
Theorem getUploads_after_script (ops : list (Op Id)) :
  current (performAll (List.map call_of ops) initial)
  = List.map Obj (surviving ops).
Proof.
  rewrite (performAll_records ops initial []); reflexivity.
Qed.

(** C4.  On a collection of records, a call of [addUpload] or
    [deleteUpload] returns normally, leaves the mutated collection, and calls
    every subscribed listener once per subscription, in subscription order,
    with the reference of the array that holds the mutated collection;
    subscribing afterwards calls nobody. *)
Theorem mutation_notifies_each_listener m o :
  all_records (current m) = true ->
  let m' := fst (perform (call_of o) m) in
  snd (perform (call_of o) m) = Returned
  /\ current m' = mutated o (current m)
  /\ calls m' = calls m ++ List.map (fun f => (f, getUploads m')) (listeners m)
  /\ (forall f, times_called f (calls m')
                = (times_called f (calls m) + subscriptions f m)%nat)
  /\ (forall f, calls (subscribe f m') = calls m').
Proof.
  intros Hall m'.
  assert (Hcalls : calls m'
            = calls m ++ List.map (fun f => (f, getUploads m')) (listeners m)
          /\ snd (perform (call_of o) m) = Returned
          /\ current m' = mutated o (current m)).
  { subst m'. destruct o as [r | i]; cbn [call_of perform fst snd].
    - split; [apply calls_addUpload|]. split; [reflexivity|].
      apply current_addUpload.
    - destruct (all_records_inv _ Hall) as [rs Hrs].
      rewrite (deleteUpload_records i m rs Hrs); cbn [fst snd].
      split; [reflexivity|]. split; [reflexivity|].
      rewrite current_notifyListeners, current_rebind, Hrs.
      cbn [mutated]. rewrite filter_map_swap. reflexivity. }
  destruct Hcalls as (Hcalls & Hret & Hcur).
  repeat split; try assumption.
  - intros f. rewrite Hcalls, times_called_app, times_called_notify.
    reflexivity.
Qed.

(** C5, as amended.  A removal never breaks uniqueness of the ids in the
    collection, and an addition keeps it when the id of the added record
    matches no id already there. *)
Theorem unique_ids_preserved m o :
  unique_ids (current m) = true ->
  fresh_for o (current m) = true ->
  unique_ids (current (fst (perform (call_of o) m))) = true.
Proof.
  intros Huniq Hfresh. destruct o as [r | i]; cbn [call_of perform fst].
  - rewrite current_addUpload. apply unique_ids_snoc; [exact Huniq|].
    cbn in Hfresh. apply negb_true_iff, Hfresh.
  - unfold deleteUpload.
    destruct (filterE (keeps i) (current m)) as [e | kept] eqn:Hf; cbn [fst].
    + exact Huniq.
    + rewrite current_notifyListeners, current_rebind.
      exact (filterE_unique_ids i _ kept Hf Huniq).
Qed.

(** C6, as amended.  Whatever it is handed, a record or [undefined],
    [addUpload] appends it to the collection and calls every subscriber with
    the reference of the new array, which holds the whole new collection. *)
Theorem addUpload_appends_and_notifies m u :
  current (addUpload u m) = current m ++ [u]
  /\ calls (addUpload u m)
     = calls m ++ List.map (fun f => (f, getUploads (addUpload u m))) (listeners m)
  /\ deref (addUpload u m) (getUploads (addUpload u m)) = current m ++ [u].
Proof.
  split; [apply current_addUpload|].
  split; [apply calls_addUpload|].
  apply current_addUpload.
Qed.

(** C8.  On a collection of records, [deleteUpload] with an id that matches
    none of them returns normally, leaves the same collection, and still
    calls every subscriber, with an array whose contents are those of the
    collection before the call. *)
Theorem deleteUpload_absent_id m i :
  all_records (current m) = true ->
  has_id i (current m) = false ->
  let m' := fst (deleteUpload i m) in
  snd (deleteUpload i m) = Returned
  /\ current m' = current m
  /\ calls m' = calls m ++ List.map (fun f => (f, getUploads m')) (listeners m)
  /\ deref m' (getUploads m') = current m
  /\ listeners m' = listeners m.
Proof.
  intros Hall Habs m'. subst m'.
  destruct (all_records_inv _ Hall) as [rs Hrs].
  rewrite (deleteUpload_records i m rs Hrs); cbn [fst snd].
  rewrite Hrs in Habs. rewrite (filter_absent i rs Habs).
  assert (Hcur : current (notifyListeners (rebind (List.map Obj rs) m))
                 = current m).
  { rewrite current_notifyListeners, current_rebind, Hrs. reflexivity. }
  repeat split; try exact Hcur.
Qed.

(** C10.  A reference that [getUploads()] has returned or that a listener
    has been called with keeps the same contents through every later call on
    the store: mutations bind [this.uploads] to a new array and leave the old
    ones alone. *)
Theorem snapshots_never_mutated (before after : list (Call Id)) l :
  handed_out (performAll before initial) l ->
  deref (performAll after (performAll before initial)) l
  = deref (performAll before initial) l.
Proof.
  intros Hout.
  destruct (allocated_performAll before initial allocated_initial l Hout)
    as [old Hold].
  unfold deref. rewrite !lookup_total_alt.
  rewrite (heap_performAll after _ l old Hold), Hold. reflexivity.
Qed.

End ManagerClaims.

(** *** The store on concrete sessions *)

(** Removing the first of the two uploads of [session] notifies the panel. *)
Lemma mutation_notifies_each_listener_witness :
  all_records (current session) = true
  /\ snd (perform (call_of (Remove (id photo))) session) = Returned
  /\ current (fst (perform (call_of (Remove (id photo))) session)) = [Obj logo]
  /\ calls (fst (perform (call_of (Remove (id photo))) session))
     = calls session ++ [(0%nat, 4%positive)].
Proof.
  split; [reflexivity|].
  pose proof (mutation_notifies_each_listener session (Remove (id photo)) eq_refl)
    as (Hret & Hcur & Hcalls & _).
  split; [exact Hret|]. split; [exact Hcur | exact Hcalls].
Defined.

(** C5, refuted as stated.  Two files whose [onload] runs within the same
    millisecond get the same id when the two random numbers round away:
    near 1.7e12 a double has 12 fractional bits, so [now + 0.5] and
    [now + 0.5000004768371582] are one number, and the collection then holds
    two records with equal ids. *)
Lemma ids_can_collide :
  PrimFloat.eqb 0.5 0x1.00001p-1 = false
  /\ unique_ids
       (current
          (onload 1700000000000 0.5 (js "b.png") (js "data:image/png;base64,Qg==")
             (onload 1700000000000 0x1.00001p-1 (js "a.png")
                (js "data:image/png;base64,QQ==") initial)))
     = false.
Proof. split; vm_compute; reflexivity. Qed.

(** Adding [logo] after [photo], and removing an id, keep the ids unique. *)
Lemma unique_ids_preserved_witness :
  unique_ids (current (addUpload (Obj photo) initial)) = true
  /\ fresh_for (Add logo) (current (addUpload (Obj photo) initial)) = true
  /\ unique_ids
       (current (fst (perform (call_of (Add logo)) (addUpload (Obj photo) initial))))
     = true.
Proof.
  split; [reflexivity|]. split; [reflexivity|].
  apply (unique_ids_preserved (addUpload (Obj photo) initial) (Add logo));
    reflexivity.
Defined.

(** C6, refuted as stated.  [addUpload()] with no argument does change the
    collection: it now ends with [undefined]. *)
Lemma addUpload_undefined_changes_collection :
  current (addUpload Undefined (@initial float))
  <> current (@initial float).
Proof. vm_compute. discriminate. Qed.

(** Removing an id nobody has from [session]. *)
Lemma deleteUpload_absent_id_witness :
  all_records (current session) = true
  /\ has_id 42%float (current session) = false
  /\ snd (deleteUpload 42%float session) = Returned
  /\ current (fst (deleteUpload 42%float session)) = current session.
Proof.
  split; [reflexivity|]. split; [reflexivity|].
  pose proof (deleteUpload_absent_id session 42%float eq_refl eq_refl)
    as (Hret & Hcur & _).
  split; [exact Hret | exact Hcur].
Defined.

(** The array the panel was called with after the first upload still holds
    that one upload after a removal and a further add. *)
Lemma snapshots_never_mutated_witness :
  handed_out
    (performAll [CallSubscribe 0%nat; CallAdd (Obj photo)] initial) 2%positive
  /\ deref
       (performAll [CallDelete (id photo); CallAdd (Obj logo)]
          (performAll [CallSubscribe 0%nat; CallAdd (Obj photo)] initial))
       2%positive
     = deref (performAll [CallSubscribe 0%nat; CallAdd (Obj photo)] initial)
         2%positive.
Proof.
  assert (Hout : handed_out
            (performAll [CallSubscribe 0%nat; CallAdd (Obj photo)]
               (@initial float)) 2%positive).
  { left. reflexivity. }
  split; [exact Hout|].
  exact (snapshots_never_mutated
           [CallSubscribe 0%nat; CallAdd (Obj photo)]
           [CallDelete (id photo); CallAdd (Obj logo)] 2%positive Hout).
Defined.

(** ** Placing an image *)

Section PolicyFacts.
Context {num : Type} `{NumberOps num}.

(** The size computed by lines 109-121 is the one the sizing rule names. *)
Lemma scaled_policy_target (w h : Z) :
  scaled {| width := w; height := h |}
  = policy_target (of_int w) (of_int h).
Proof.
  unfold scaled, policy_target, maxWidth, maxHeight; cbn [width height].
  destruct (gt (of_int w) (of_int 600) || gt (of_int h) (of_int 400))%bool;
    reflexivity.
Qed.

(** A rejected probe would reach the [catch]; nothing else logs. *)
Lemma addImageToCanvas_console browser imageUrl (p : Page num) :
  console (fst (addImageToCanvas browser imageUrl p)) = console p.
Proof.
  unfold addImageToCanvas, getImageDimensions.
  destruct (browser imageUrl); reflexivity.
Qed.

Lemma addImageToCanvas_manager browser imageUrl (p : Page num) :
  manager (fst (addImageToCanvas browser imageUrl p)) = manager p.
Proof.
  unfold addImageToCanvas, getImageDimensions.
  destruct (browser imageUrl); reflexivity.
Qed.

End PolicyFacts.

(** C1.  When the image loads with intrinsic size [w] x [h], the element is
    created with the size of the sizing rule: both dimensions times
    [min(600/w, 400/h)] if [w > 600] or [h > 400], the intrinsic size
    otherwise.  In doubles, 1200x800 gives 600x400, 300x200 stays 300x200 and
    800x300 gives 600x225. *)
Theorem addImageToCanvas_target_size :
  (forall (w h : Z) (imageUrl : JSString) (p : Page float),
      addImageToCanvas (fun _ => LoadEvent w h) imageUrl p
      = (place imageUrl (policy_target (of_int w) (of_int h)) p, Returned))
  /\ scaled {| width := 1200; height := 800 |} = (600%float, 400%float)
  /\ scaled {| width := 300; height := 200 |} = (300%float, 200%float)
  /\ scaled {| width := 800; height := 300 |} = (600%float, 225%float).
Proof.
  split.
  - intros w h imageUrl p. unfold addImageToCanvas, getImageDimensions.
    rewrite scaled_policy_target. reflexivity.
  - repeat split; vm_compute; reflexivity.
Qed.

(** C2, as the code behaves.  When the browser fires [error] instead of
    [load], the promise of [getImageDimensions] never settles, so
    [addImageToCanvas] stays parked on its [await]: the page is left exactly
    as it was, which means no element and no change to the store, but also
    no entry in the console. *)
Theorem failed_probe_logs_nothing (imageUrl : JSString) (p : Page float) :
  getImageDimensions (fun _ => ErrorEvent) imageUrl = Pending
  /\ addImageToCanvas (fun _ => ErrorEvent) imageUrl p = (p, Suspended)
  /\ console (fst (addImageToCanvas (fun _ => ErrorEvent) imageUrl p)) = console p.
Proof. repeat split. Qed.

(** Clicking the thumbnail of an upload the browser cannot decode, and of
    one it decodes as 800x300. *)
Example undecodable_upload_click :
  addImageToCanvas (fun _ => ErrorEvent) (js "data:image/png;base64,AAAA") emptyPage
  = (emptyPage, Suspended).
Proof. reflexivity. Qed.

Example wide_upload_click :
  List.map (fun e => (elem_width e, elem_height e))
    (elements (fst (addImageToCanvas (fun _ => LoadEvent 800 300) (url photo) emptyPage)))
  = [(600%float, 225%float)].
Proof. vm_compute. reflexivity. Qed.

(** C7, refuted as stated.  In doubles a 1x530 image is given the height
    400.00000000000006 (one unit in the last place above 400), and a 3x420
    image a size whose cross products differ. *)
Lemma binary64_target_leaves_box :
  snd (scaled {| width := 1; height := 530 |}) = 0x1.9000000000001p+8%float
  /\ PrimFloat.leb (snd (scaled {| width := 1; height := 530 |})) 400 = false
  /\ PrimFloat.eqb
       (fst (scaled {| width := 3; height := 420 |}) * of_int 420)
       (snd (scaled {| width := 3; height := 420 |}) * of_int 3) = false.
Proof. repeat split; vm_compute; reflexivity. Qed.

(** ** Rounding to nearest in binary64 *)

Section Binary64Rounding.

(** *** Mantissas, their shifts and their rounding *)

Lemma digits2_pos_size (p : positive) : digits2_pos p = Pos.size p.
Proof. induction p as [p IH | p IH |]; cbn; congruence. Qed.

Lemma Zdigits2_bounds (m : Z) :
  0 < m -> 2 ^ (Zdigits2 m - 1) <= m < 2 ^ Zdigits2 m.
Proof.
  destruct m as [|p|p]; try lia. intros _. cbn [Zdigits2].
  rewrite digits2_pos_size.
  pose proof (Pos.size_gt p) as Hgt. pose proof (Pos.size_le p) as Hle.
  apply Pos2Z.pos_lt_pos in Hgt. apply Pos2Z.pos_le_pos in Hle.
  rewrite Pos2Z.inj_pow in Hgt, Hle.
  replace (Z.pos (Pos.size p)) with (Z.succ (Z.pos (Pos.size p) - 1)) in Hle at 1 by lia.
  rewrite Z.pow_succ_r in Hle by lia. lia.
Qed.

Lemma Zdigits2_unique (m d : Z) :
  2 ^ (d - 1) <= m < 2 ^ d -> 0 < m -> Zdigits2 m = d.
Proof.
  intros Hd Hm. pose proof (Zdigits2_bounds m Hm) as Hb.
  assert (Hpos : 0 < Zdigits2 m) by (destruct m; cbn; lia).
  destruct (Z.lt_trichotomy (Zdigits2 m) d) as [Hlt | [Heq | Hgt]]; [|exact Heq|].
  - assert (2 ^ Zdigits2 m <= 2 ^ (d - 1)) by (apply Z.pow_le_mono_r; lia). lia.
  - assert (d <= 0 \/ 0 < d) as [Hd0 | Hd0] by lia.
    + assert (2 ^ d <= 2 ^ 0) by (apply Z.pow_le_mono_r; lia). cbn in *. lia.
    + assert (2 ^ d <= 2 ^ (Zdigits2 m - 1)) by (apply Z.pow_le_mono_r; lia). lia.
Qed.

Lemma located_shr_1 (N D m : Z) (r s : bool) :
  located N D m r s ->
  located N (2 * D) (shr_m (shr_1 (Build_shr_record m r s)))
    (shr_r (shr_1 (Build_shr_record m r s)))
    (shr_s (shr_1 (Build_shr_record m r s))).
Proof.
  intros (HD & HN & Hm & Hloc).
  assert (Hm0 : 0 <= m) by (subst m; apply Z.div_pos; lia).
  assert (Hdiv : N / (2 * D) = m / 2).
  { subst m. rewrite (Z.mul_comm 2 D), <- Z.div_div by lia. reflexivity. }
  assert (Hmod : N mod (2 * D) = N mod D + D * (m mod 2)).
  { subst m. rewrite (Z.mul_comm 2 D). apply Z.rem_mul_r; lia. }
  assert (Hrem : 0 <= N mod D < D) by (apply Z.mod_pos_bound; lia).
  unfold located. rewrite Hdiv, Hmod.
  destruct m as [|[p|p|]|p]; try lia; cbn [shr_1 shr_m shr_r shr_s].
  - change (0 / 2) with 0. change (0 mod 2) with 0.
    repeat split; try lia. destruct r, s; cbn; lia.
  - replace (Z.pos p~1 / 2) with (Z.pos p)
      by (apply Z.div_unique with 1; lia).
    replace (Z.pos p~1 mod 2) with 1
      by (apply Z.mod_unique with (Z.pos p); lia).
    repeat split; try lia. destruct r, s; cbn; lia.
  - replace (Z.pos p~0 / 2) with (Z.pos p)
      by (apply Z.div_unique with 0; lia).
    replace (Z.pos p~0 mod 2) with 0
      by (apply Z.mod_unique with (Z.pos p); lia).
    repeat split; try lia. destruct r, s; cbn; lia.
  - change (1 / 2) with 0. change (1 mod 2) with 1.
    repeat split; try lia. destruct r, s; cbn; lia.
Qed.


Lemma located_rec_shr_1 N D mrs :
  located_rec N D mrs -> located_rec N (2 * D) (shr_1 mrs).
Proof. destruct mrs as [m r s]. apply located_shr_1. Qed.

Lemma located_rec_iter (p : positive) :
  forall N D mrs,
    located_rec N D mrs ->
    located_rec N (D * 2 ^ Z.pos p) (SpecFloat.iter_pos shr_1 p mrs).
Proof.
  induction p as [p IH | p IH |]; intros N D mrs Hloc; cbn [SpecFloat.iter_pos].
  - apply located_rec_shr_1 in Hloc. apply IH, IH in Hloc.
    replace (D * 2 ^ Z.pos p~1) with (2 * D * 2 ^ Z.pos p * 2 ^ Z.pos p);
      [exact Hloc|].
    rewrite Pos2Z.inj_xI, Z.pow_add_r, Z.pow_mul_r by lia.
    change (2 ^ 2) with 4. rewrite Z.pow_1_r.
    replace (4 ^ Z.pos p) with (2 ^ Z.pos p * 2 ^ Z.pos p); [ring|].
    rewrite <- Z.pow_add_r by lia. replace (Z.pos p + Z.pos p) with (2 * Z.pos p) by lia.
    rewrite Z.pow_mul_r by lia. reflexivity.
  - apply IH, IH in Hloc.
    replace (D * 2 ^ Z.pos p~0) with (D * 2 ^ Z.pos p * 2 ^ Z.pos p);
      [exact Hloc|].
    rewrite Pos2Z.inj_xO, <- Z.mul_assoc, <- Z.pow_add_r by lia.
    f_equal. f_equal. lia.
  - apply located_rec_shr_1 in Hloc.
    replace (D * 2 ^ 1) with (2 * D) by (rewrite Z.pow_1_r; ring). exact Hloc.
Qed.

(** Shifting by [n] bits, as [shr] does. *)
Lemma located_rec_shr N D mrs e n :
  0 <= n ->
  located_rec N D mrs ->
  located_rec N (D * 2 ^ n) (fst (shr mrs e n)) /\ snd (shr mrs e n) = e + n.
Proof.
  intros Hn Hloc. destruct n as [|p|p]; try lia; cbn [shr fst snd].
  - rewrite Z.mul_1_r, Z.add_0_r. split; [exact Hloc | reflexivity].
  - split; [apply located_rec_iter, Hloc | reflexivity].
Qed.

(** Rounding to nearest, ties to even: the rounded mantissa is at most
    half a unit away from the quotient. *)
Lemma round_nearest_even_located N D mrs :
  located_rec N D mrs ->
  let k := round_nearest_even (shr_m mrs) (loc_of_shr_record mrs) in
  (k = N / D \/ k = N / D + 1)
  /\ - D <= 2 * (k * D - N) <= D.
Proof.
  destruct mrs as [m r s]. intros (HD & HN & Hm & Hloc); cbn in *.
  pose proof (Z.div_mod N D ltac:(lia)) as Hdm.
  pose proof (Z.mod_pos_bound N D HD) as Hrem.
  rewrite <- Hm in *.
  destruct r, s; cbn [round_nearest_even].
  - split; [right; reflexivity | nia].
  - destruct (Z.even m); (split; [auto | nia]).
  - split; [left; reflexivity | nia].
  - split; [left; reflexivity | nia].
Qed.

Lemma fexp_normal (x : Z) : -1074 <= x - 53 -> fexp prec emax x = x - 53.
Proof. unfold fexp, SpecFloat.emin, prec, emax. lia. Qed.

(** What [binary_round_aux] returns for a positive mantissa of at least 53
    bits whose rounded value is a normal number: the quotient [N / D], scaled
    by [2 ^ e0], rounded to 53 bits, to nearest with ties to even. *)
Lemma binary_round_aux_normal (N D m0 e0 : Z) (l0 : location) :
  located_rec N D (shr_record_of_loc m0 l0) ->
  0 < m0 ->
  53 <= Zdigits2 m0 ->
  -1074 <= Zdigits2 m0 + e0 - 53 ->
  Zdigits2 m0 + e0 <= 1023 ->
  exists mz ez k,
    binary_round_aux prec emax false m0 e0 l0 = S754_finite false mz ez
    /\ 2 ^ 52 <= N / (D * 2 ^ (Zdigits2 m0 - 53)) < 2 ^ 53
    /\ (k = N / (D * 2 ^ (Zdigits2 m0 - 53))
        \/ k = N / (D * 2 ^ (Zdigits2 m0 - 53)) + 1)
    /\ - (D * 2 ^ (Zdigits2 m0 - 53))
       <= 2 * (k * (D * 2 ^ (Zdigits2 m0 - 53)) - N)
       <= D * 2 ^ (Zdigits2 m0 - 53)
    /\ ((Z.pos mz = k /\ ez = e0 + (Zdigits2 m0 - 53))
        \/ (k = 2 ^ 53 /\ Z.pos mz = 2 ^ 52 /\ ez = e0 + (Zdigits2 m0 - 53) + 1))
    /\ 2 ^ 52 <= Z.pos mz < 2 ^ 53.
Proof.
  intros Hloc Hm0 Hd Hlow Hhigh.
  set (d := Zdigits2 m0) in *. set (n := d - 53) in *.
  assert (Hn : 0 <= n) by lia.
  assert (Hm0D : m0 = N / D).
  { destruct Hloc as (_ & _ & Hm & _). destruct l0 as [|[]]; exact Hm. }
  assert (HD : 0 < D) by (destruct Hloc as (HD & _); exact HD).
  destruct (located_rec_shr N D (shr_record_of_loc m0 l0) e0 n Hn Hloc)
    as [Hloc' He'].
  assert (Hpow : 0 < 2 ^ n) by (apply Z.pow_pos_nonneg; lia).
  assert (Hq : N / (D * 2 ^ n) = m0 / 2 ^ n).
  { rewrite Hm0D, Z.div_div by lia. reflexivity. }
  assert (Hbounds : 2 ^ 52 <= N / (D * 2 ^ n) < 2 ^ 53).
  { rewrite Hq. pose proof (Zdigits2_bounds m0 Hm0) as [Hb1 Hb2].
    fold d in Hb1, Hb2.
    assert (E1 : 2 ^ (d - 1) = 2 ^ n * 2 ^ 52).
    { rewrite <- Z.pow_add_r by lia. f_equal. lia. }
    assert (E2 : 2 ^ d = 2 ^ 53 * 2 ^ n).
    { rewrite <- Z.pow_add_r by lia. f_equal. lia. }
    split.
    - apply Z.div_le_lower_bound; [exact Hpow|]. rewrite <- E1. exact Hb1.
    - apply Z.div_lt_upper_bound; [exact Hpow|]. rewrite (Z.mul_comm (2 ^ n)), <- E2.
      exact Hb2. }
  pose proof (round_nearest_even_located N (D * 2 ^ n) _ Hloc') as [Hk Herr].
  set (k := round_nearest_even (shr_m (fst (shr (shr_record_of_loc m0 l0) e0 n)))
              (loc_of_shr_record (fst (shr (shr_record_of_loc m0 l0) e0 n)))) in *.
  assert (Hkpos : 2 ^ 52 <= k <= 2 ^ 53) by lia.
  unfold binary_round_aux, shr_fexp.
  fold d. rewrite (fexp_normal (d + e0)) by lia.
  replace (d + e0 - 53 - e0) with n by lia.
  destruct (shr (shr_record_of_loc m0 l0) e0 n) as [mrs' e'] eqn:Hshr.
  cbn [fst snd] in *. subst e'. fold k.
  destruct (Z.eq_dec k (2 ^ 53)) as [Hk53 | Hk53].
  - (* the rounding carried into a 54th bit *)
    rewrite Hk53. change (Zdigits2 (2 ^ 53)) with 54.
    rewrite (fexp_normal (54 + (e0 + n))) by lia.
    replace (54 + (e0 + n) - 53 - (e0 + n)) with 1 by lia.
    cbn [shr_record_of_loc shr SpecFloat.iter_pos shr_1 shr_m].
    change (2 ^ 53) with (Z.pos (2 ^ 53)%positive).
    cbn [shr_1 shr_m Pos.pow Pos.iter Pos.mul].
    replace (e0 + n + 1 <=? emax - prec) with true
      by (symmetry; apply Z.leb_le; unfold emax, prec; lia).
    eexists _, _, k. split; [reflexivity|].
    split; [exact Hbounds|]. split; [exact Hk|]. split; [exact Herr|].
    split; [right; split; [exact Hk53 | split; reflexivity] | cbn; lia].
  - assert (Hdk : Zdigits2 k = 53) by (apply Zdigits2_unique; lia).
    rewrite Hdk, (fexp_normal (53 + (e0 + n))) by lia.
    replace (53 + (e0 + n) - 53 - (e0 + n)) with 0 by lia.
    cbn [shr_record_of_loc shr shr_m].
    destruct k as [|pk|pk]; try lia.
    replace (e0 + n <=? emax - prec) with true
      by (symmetry; apply Z.leb_le; unfold emax, prec; lia).
    exists pk, (e0 + n), (Z.pos pk). split; [reflexivity|].
    split; [exact Hbounds|]. split; [exact Hk|]. split; [exact Herr|].
    split; [left; split; reflexivity | lia].
Qed.

(** *** Values *)

Local Open Scope Q_scope.

Lemma pow2_pos (e : Z) : 0 < 2 ^ e.
Proof. apply Qpower_0_lt. reflexivity. Qed.

Lemma pow2_add (a b : Z) : 2 ^ (a + b) == 2 ^ a * 2 ^ b.
Proof. apply Qpower_plus. discriminate. Qed.

Lemma pow2_le (a b : Z) : (a <= b)%Z -> 2 ^ a <= 2 ^ b.
Proof. intros Hab. apply Qpower_le_compat_l; [exact Hab | discriminate]. Qed.

Lemma pow2_lt_inv (a b : Z) : 2 ^ a < 2 ^ b -> (a < b)%Z.
Proof. intros Hab. apply (Qpower_lt_compat_l_inv 2); [exact Hab | reflexivity]. Qed.

Lemma pow2_inject (n : Z) : (0 <= n)%Z -> inject_Z (2 ^ n) == 2 ^ n.
Proof. intros Hn. apply (Zpower_Qpower 2 n Hn). Qed.

Lemma inject_Z_le (a b : Z) : (a <= b)%Z -> inject_Z a <= inject_Z b.
Proof. intros Hab. rewrite <- Zle_Qle. exact Hab. Qed.

Lemma inject_Z_lt (a b : Z) : (a < b)%Z -> inject_Z a < inject_Z b.
Proof. intros Hab. rewrite <- Zlt_Qlt. exact Hab. Qed.

Lemma SFval_normal_pos x : normal x -> 0 < SFval x.
Proof.
  intros (m & e & -> & Hm & _). cbn [SFval].
  rewrite Qmult_1_l. apply Qmult_lt_0_compat; [reflexivity | apply pow2_pos].
Qed.

(** The value of a normal number lies in the binade its exponent names. *)
Lemma SFval_binade m e :
  (2 ^ 52 <= Z.pos m < 2 ^ 53)%Z ->
  2 ^ (52 + e) <= SFval (S754_finite false m e)
  /\ SFval (S754_finite false m e) < 2 ^ (53 + e).
Proof.
  intros [Hlo Hhi]. cbn [SFval]. rewrite Qmult_1_l, !pow2_add.
  rewrite <- !pow2_inject by lia.
  pose proof (pow2_pos e) as He. split.
  - apply Qmult_le_compat_r; [apply inject_Z_le, Hlo | apply Qlt_le_weak, He].
  - apply Qmult_lt_compat_r; [exact He | apply inject_Z_lt, Hhi].
Qed.

(** *** Comparisons *)

(** On positive normal numbers the comparison of the format is the
    comparison of the values. *)
Lemma SFcompare_normal x y :
  normal x -> normal y ->
  exists c,
    SFcompare x y = Some c
    /\ match c with
       | Lt => SFval x < SFval y
       | Eq => SFval x == SFval y
       | Gt => SFval y < SFval x
       end.
Proof.
  intros (m1 & e1 & -> & Hm1 & He1) (m2 & e2 & -> & Hm2 & He2).
  cbn [SFcompare].
  pose proof (SFval_binade m1 e1 Hm1) as [Hlo1 Hhi1].
  pose proof (SFval_binade m2 e2 Hm2) as [Hlo2 Hhi2].
  destruct (Z.compare_spec e1 e2) as [Heq | Hlt | Hgt].
  - subst e2. change (Pos.compare_cont Eq m1 m2) with (Pos.compare m1 m2).
    eexists. split; [reflexivity|].
    pose proof (pow2_pos e1) as He.
    destruct (Pos.compare_spec m1 m2) as [Hm | Hm | Hm]; cbn [SFval].
    + subst m2. reflexivity.
    + apply Qmult_lt_compat_r; [exact He|].
      rewrite !Qmult_1_l. apply inject_Z_lt; lia.
    + apply Qmult_lt_compat_r; [exact He|].
      rewrite !Qmult_1_l. apply inject_Z_lt; lia.
  - exists Lt. split; [reflexivity|].
    apply Qlt_le_trans with (2 ^ (53 + e1)); [exact Hhi1|].
    apply Qle_trans with (2 ^ (52 + e2)); [apply pow2_le; lia | exact Hlo2].
  - exists Gt. split; [reflexivity|].
    apply Qlt_le_trans with (2 ^ (53 + e2)); [exact Hhi2|].
    apply Qle_trans with (2 ^ (52 + e1)); [apply pow2_le; lia | exact Hlo1].
Qed.

Lemma SFltb_true_normal x y :
  normal x -> normal y -> SFltb x y = true -> SFval x < SFval y.
Proof.
  intros Hx Hy. unfold SFltb.
  destruct (SFcompare_normal x y Hx Hy) as (c & -> & Hc).
  destruct c; [discriminate | intros _; exact Hc | discriminate].
Qed.

Lemma SFltb_false_normal x y :
  normal x -> normal y -> SFltb x y = false -> SFval y <= SFval x.
Proof.
  intros Hx Hy. unfold SFltb.
  destruct (SFcompare_normal x y Hx Hy) as (c & -> & Hc).
  destruct c; intros Hf; try discriminate.
  - rewrite Hc. apply Qle_refl.
  - apply Qlt_le_weak, Hc.
Qed.

Lemma SFleb_normal x y :
  normal x -> normal y -> SFval x <= SFval y -> SFleb x y = true.
Proof.
  intros Hx Hy Hle. unfold SFleb.
  destruct (SFcompare_normal x y Hx Hy) as (c & -> & Hc).
  destruct c; try reflexivity.
  exfalso. exact (Qlt_not_le _ _ Hc Hle).
Qed.

Lemma SFeqb_refl_normal x : normal x -> SFeqb x x = true.
Proof.
  intros Hx. unfold SFeqb.
  destruct (SFcompare_normal x x Hx Hx) as (c & -> & Hc).
  destruct c; [reflexivity | |]; exfalso; exact (Qlt_irrefl _ Hc).
Qed.

(** *** Products and quotients are rounded to nearest *)

(** Bounds on a quotient of integers, scaled by a positive factor. *)
Lemma scaled_quotient_bounds (N D k : Z) (t P : Q) :
  (0 < D)%Z -> 0 < t ->
  P == inject_Z N / inject_Z D * t ->
  (2 ^ 52 <= N / D < 2 ^ 53)%Z ->
  (- D <= 2 * (k * D - N) <= D)%Z ->
  inject_Z (2 ^ 52) * t <= P
  /\ P < inject_Z (2 ^ 53) * t
  /\ inject_Z k * t - P <= t * (1 # 2)
  /\ P - inject_Z k * t <= t * (1 # 2).
Proof.
  intros HD Ht HP [Hlo Hhi] [Hlow Hup].
  assert (HloN : (2 ^ 52 * D <= N)%Z).
  { pose proof (Z.mul_div_le N D HD). nia. }
  assert (HhiN : (N < 2 ^ 53 * D)%Z).
  { pose proof (Z.mul_succ_div_gt N D HD). nia. }
  assert (Hlow' : (2 * N <= 2 * (k * D) + D)%Z) by lia.
  assert (Hup' : (2 * (k * D) <= 2 * N + D)%Z) by lia.
  clear Hlow Hup. rename Hlow' into Hlow. rename Hup' into Hup.
  apply inject_Z_le in HloN, Hlow, Hup. apply inject_Z_lt in HhiN, HD.
  rewrite inject_Z_mult in HloN, HhiN.
  rewrite !inject_Z_plus, !inject_Z_mult in Hlow, Hup.
  change (inject_Z 2) with 2 in Hlow, Hup.
  assert (Hx : P * inject_Z D == inject_Z N * t).
  { rewrite HP. field. intros Hz. rewrite Hz in HD. exact (Qlt_irrefl _ HD). }
  clear HP Hlo Hhi.
  change (inject_Z 0) with 0 in *. change (inject_Z 2) with 2 in *.
  revert HloN HhiN Hlow Hup HD Hx.
  generalize (inject_Z D) (inject_Z N) (inject_Z (2 ^ 52)) (inject_Z (2 ^ 53))
    (inject_Z k).
  intros d n a52 a53 ak HloN HhiN Hlow Hup Hd Hx.
  assert (G1 : a52 * t * d <= P * d) by (rewrite Hx; nra).
  assert (G2 : P * d < a53 * t * d) by (rewrite Hx; nra).
  assert (G3 : (ak * t - P) * d <= t * (1 # 2) * d).
  { assert (E : (ak * t - P) * d == t * (ak * d - n))
      by (transitivity (ak * t * d - P * d); [ring | rewrite Hx; ring]).
    assert (E' : t * (1 # 2) * d == t * (d * (1 # 2))) by ring.
    rewrite E, E'. apply Qmult_le_l; [exact Ht|].
    clear -Hlow Hup. revert Hlow Hup. generalize (ak * d). intros; lra. }
  assert (G4 : (P - ak * t) * d <= t * (1 # 2) * d).
  { assert (E : (P - ak * t) * d == t * (n - ak * d))
      by (transitivity (P * d - ak * t * d); [ring | rewrite Hx; ring]).
    assert (E' : t * (1 # 2) * d == t * (d * (1 # 2))) by ring.
    rewrite E, E'. apply Qmult_le_l; [exact Ht|].
    clear -Hlow Hup. revert Hlow Hup. generalize (ak * d). intros; lra. }
  repeat split.
  - exact (proj1 (Qmult_le_r _ _ d Hd) G1).
  - exact (proj1 (Qmult_lt_r _ _ d Hd) G2).
  - exact (proj1 (Qmult_le_r _ _ d Hd) G3).
  - exact (proj1 (Qmult_le_r _ _ d Hd) G4).
Qed.

Lemma inject_pow2_mul (D n : Z) :
  (0 <= n)%Z -> inject_Z (D * 2 ^ n) == inject_Z D * 2 ^ n.
Proof. intros Hn. rewrite inject_Z_mult, pow2_inject by exact Hn. reflexivity. Qed.

(** [binary_round_aux], read on values. *)
Lemma binary_round_aux_rounded (N D m0 e0 : Z) (l0 : location) :
  located_rec N D (shr_record_of_loc m0 l0) ->
  (0 < m0)%Z ->
  (53 <= Zdigits2 m0)%Z ->
  (-1074 <= Zdigits2 m0 + e0 - 53)%Z ->
  (Zdigits2 m0 + e0 <= 1023)%Z ->
  rounded (inject_Z N / inject_Z D * 2 ^ e0)
    (binary_round_aux prec emax false m0 e0 l0).
Proof.
  intros Hloc Hm0 Hd Hlow Hhigh.
  assert (HD : (0 < D)%Z) by (destruct Hloc as (HD & _); exact HD).
  destruct (binary_round_aux_normal N D m0 e0 l0 Hloc Hm0 Hd Hlow Hhigh)
    as (mz & ez & k & -> & Hq & Hk & Herr & Hres & Hmz).
  set (n := (Zdigits2 m0 - 53)%Z) in *.
  assert (Hn : (0 <= n)%Z) by lia.
  assert (Hpow : (0 < 2 ^ n)%Z) by (apply Z.pow_pos_nonneg; lia).
  split.
  - exists mz, ez. split; [reflexivity|]. split; [exact Hmz|].
    destruct Hres as [[_ ->] | (_ & _ & ->)]; lia.
  - exists k, (e0 + n)%Z.
    assert (Hval : SFval (S754_finite false mz ez) == inject_Z k * 2 ^ (e0 + n)).
    { cbn [SFval]. rewrite Qmult_1_l.
      destruct Hres as [[-> ->] | (-> & -> & ->)]; [reflexivity|].
      rewrite (pow2_add (e0 + n) 1).
      change (inject_Z (2 ^ 53)) with (inject_Z (2 ^ 52) * 2).
      change (2 ^ 1) with 2. ring. }
    split; [exact Hval|]. split; [lia|].
    apply (scaled_quotient_bounds N (D * 2 ^ n) k (2 ^ (e0 + n))); try assumption.
    + nia.
    + apply pow2_pos.
    + rewrite inject_pow2_mul, pow2_add by exact Hn. field. split.
      * apply Qpower_not_0. discriminate.
      * intros Hz. apply inject_Z_lt in HD. rewrite Hz in HD.
        exact (Qlt_irrefl _ HD).
Qed.

Lemma rounded_ext (P P' : Q) z : P == P' -> rounded P z -> rounded P' z.
Proof.
  intros HP (Hn & k & e & Hval & Hk & H1 & H2 & H3 & H4).
  split; [exact Hn|]. exists k, e. rewrite <- HP. repeat split; assumption.
Qed.

Lemma pow_le_digits (m d a : Z) :
  (0 < m)%Z -> (2 ^ a <= m)%Z -> (0 <= a)%Z -> (a < Zdigits2 m)%Z.
Proof.
  intros Hm Ha Ha0. pose proof (Zdigits2_bounds m Hm) as [_ Hhi].
  destruct (Z_lt_le_dec a (Zdigits2 m)) as [Hlt | Hge]; [exact Hlt|].
  assert (Hd0 : (0 < Zdigits2 m)%Z) by (destruct m; cbn; lia).
  assert (2 ^ Zdigits2 m <= 2 ^ a)%Z by (apply Z.pow_le_mono_r; lia). lia.
Qed.

Lemma pow_gt_digits (m b : Z) :
  (0 < m)%Z -> (m < 2 ^ b)%Z -> (0 <= b)%Z -> (Zdigits2 m <= b)%Z.
Proof.
  intros Hm Hb Hb0. pose proof (Zdigits2_bounds m Hm) as [Hlo _].
  destruct (Z_le_gt_dec (Zdigits2 m) b) as [Hle | Hgt]; [exact Hle|].
  assert (2 ^ b <= 2 ^ (Zdigits2 m - 1))%Z by (apply Z.pow_le_mono_r; lia). lia.
Qed.

(** The product of two positive normal doubles, when it is far from
    overflow and underflow, is the exact product rounded to nearest. *)
Lemma SFmul_rounded (mx my : positive) (ex ey : Z) :
  (2 ^ 52 <= Z.pos mx < 2 ^ 53)%Z ->
  (2 ^ 52 <= Z.pos my < 2 ^ 53)%Z ->
  (-1100 <= ex + ey <= 900)%Z ->
  rounded (SFval (S754_finite false mx ex) * SFval (S754_finite false my ey))
    (SFmul prec emax (S754_finite false mx ex) (S754_finite false my ey)).
Proof.
  intros Hmx Hmy He. cbn [SFmul xorb].
  set (N := Z.pos (mx * my)).
  assert (HN : N = (Z.pos mx * Z.pos my)%Z) by reflexivity.
  assert (Hlo : (2 ^ 104 <= N)%Z).
  { rewrite HN. change (2 ^ 104)%Z with (2 ^ 52 * 2 ^ 52)%Z.
    apply Z.mul_le_mono_nonneg; lia. }
  assert (Hhi : (N < 2 ^ 106)%Z).
  { rewrite HN. change (2 ^ 106)%Z with (2 ^ 53 * 2 ^ 53)%Z.
    apply Z.mul_lt_mono_nonneg; lia. }
  assert (Hpos : (0 < N)%Z) by reflexivity.
  pose proof (pow_le_digits N 0 104 Hpos Hlo ltac:(lia)) as Hd1.
  pose proof (pow_gt_digits N 106 Hpos Hhi ltac:(lia)) as Hd2.
  apply (rounded_ext (inject_Z N / inject_Z 1 * 2 ^ (ex + ey))).
  - cbn [SFval]. rewrite HN, inject_Z_mult, pow2_add.
    change (inject_Z 1) with 1. field.
  - apply binary_round_aux_rounded; try lia.
    unfold located_rec, located; cbn [shr_record_of_loc shr_m shr_r shr_s].
    rewrite Z.div_1_r, Z.mod_1_r. repeat split; lia.
Qed.

(** Where a remainder stands against half the divisor, as [new_location]
    tells it. *)
Lemma new_location_located (N D : Z) :
  (0 < D)%Z -> (0 <= N)%Z ->
  located_rec N D (shr_record_of_loc (N / D) (new_location D (N mod D))).
Proof.
  intros HD HN. pose proof (Z.mod_pos_bound N D HD) as Hr.
  unfold located_rec, located, new_location, new_location_even, new_location_odd.
  destruct (Z.even D) eqn:Heven.
  - destruct (Z.eqb_spec (N mod D) 0) as [H0 | H0];
      [cbn; repeat split; lia|].
    destruct (Z.compare_spec (2 * (N mod D)) D); cbn; repeat split; lia.
  - assert (Hodd : Z.odd D = true) by (rewrite <- Z.negb_even, Heven; reflexivity).
    apply Z.odd_spec in Hodd as [j Hj].
    destruct (Z.eqb_spec (N mod D) 0) as [H0 | H0];
      [cbn; repeat split; lia|].
    destruct (Z.compare_spec (2 * (N mod D) + 1) D); cbn; repeat split; lia.
Qed.

(** The quotient of two positive normal doubles, when it is far from
    overflow and underflow, is the exact quotient rounded to nearest. *)
Lemma SFdiv_rounded (mx my : positive) (ex ey : Z) :
  (2 ^ 52 <= Z.pos mx < 2 ^ 53)%Z ->
  (2 ^ 52 <= Z.pos my < 2 ^ 53)%Z ->
  (-1000 <= ex - ey <= 1000)%Z ->
  rounded (SFval (S754_finite false mx ex) / SFval (S754_finite false my ey))
    (SFdiv prec emax (S754_finite false mx ex) (S754_finite false my ey)).
Proof.
  intros Hmx Hmy He. cbn [SFdiv xorb]. unfold SFdiv_core_binary.
  rewrite (Zdigits2_unique (Z.pos mx) 53), (Zdigits2_unique (Z.pos my) 53)
    by (change (53 - 1)%Z with 52%Z; lia).
  replace (53 + ex - (53 + ey))%Z with (ex - ey)%Z by lia.
  rewrite fexp_normal by lia.
  replace (Z.min (ex - ey - 53) (ex - ey)) with (ex - ey - 53)%Z by lia.
  replace (ex - ey - (ex - ey - 53))%Z with 53%Z by lia.
  cbv zeta. rewrite Z.shiftl_mul_pow2 by lia.
  set (N := (Z.pos mx * 2 ^ 53)%Z). set (D := Z.pos my).
  assert (Hq : Z.div_eucl N D = (N / D, N mod D)%Z).
  { unfold Z.div, Z.modulo. destruct (Z.div_eucl N D); reflexivity. }
  rewrite Hq.
  assert (HD : (0 < D)%Z) by reflexivity.
  assert (HN : (0 <= N)%Z) by (unfold N; lia).
  assert (Hqlo : (2 ^ 52 <= N / D)%Z).
  { apply Z.div_le_lower_bound; [exact HD|]. unfold N, D.
    rewrite (Z.mul_comm (Z.pos my)).
    apply Z.mul_le_mono_nonneg; lia. }
  assert (Hqhi : (N / D < 2 ^ 54)%Z).
  { apply Z.div_lt_upper_bound; [exact HD|]. unfold N, D.
    apply Z.lt_le_trans with (2 ^ 53 * 2 ^ 53)%Z.
    - apply Z.mul_lt_mono_pos_r; lia.
    - change (2 ^ 53 * 2 ^ 53)%Z with (2 ^ 52 * 2 ^ 54)%Z.
      apply Z.mul_le_mono_nonneg_r; lia. }
  assert (Hqpos : (0 < N / D)%Z) by lia.
  pose proof (pow_le_digits (N / D) 0 52 Hqpos Hqlo ltac:(lia)) as Hd1.
  pose proof (pow_gt_digits (N / D) 54 Hqpos Hqhi ltac:(lia)) as Hd2.
  apply (rounded_ext (inject_Z N / inject_Z D * 2 ^ (ex - ey - 53))).
  - cbn [SFval]. unfold N, D.
    rewrite inject_Z_mult, (pow2_inject 53) by lia.
    replace (ex - ey - 53)%Z with (ex + (- ey) + (- (53)))%Z by lia.
    rewrite !pow2_add, !Qpower_opp. field.
    repeat split; try (apply Qpower_not_0; discriminate).
    intros Hz. assert (H0 : 0 < inject_Z (Z.pos my)) by reflexivity.
    rewrite Hz in H0. exact (Qlt_irrefl _ H0).
  - apply binary_round_aux_rounded; try lia.
    apply new_location_located; assumption.
Qed.


(** *** Integers as doubles, and [Math.min] *)

Lemma iter_xO (p k : positive) :
  Z.pos (Pos.iter xO p k) = (Z.pos p * 2 ^ Z.pos k)%Z.
Proof.
  induction k as [|k IH] using Pos.peano_ind.
  - cbn [Pos.iter]. rewrite Z.pow_1_r. lia.
  - rewrite Pos.iter_succ, Pos2Z.inj_xO, IH, Pos2Z.inj_succ, Z.pow_succ_r by lia.
    ring.
Qed.

Lemma shl_align_spec (mx : positive) (ex ex' : Z) :
  (ex' <= ex)%Z ->
  snd (shl_align mx ex ex') = ex'
  /\ Z.pos (fst (shl_align mx ex ex')) = (Z.pos mx * 2 ^ (ex - ex'))%Z.
Proof.
  intros Hle. unfold shl_align.
  destruct (ex' - ex)%Z as [|d|d] eqn:Hd; try lia; cbn [fst snd].
  - replace (ex - ex')%Z with 0%Z by lia. split; lia.
  - rewrite iter_xO. replace (ex - ex')%Z with (Z.pos d) by lia. split; lia.
Qed.

(** An integer below 2^53 converts to the double of that value. *)
Lemma of_int_normal (z : Z) :
  (0 < z < 2 ^ 53)%Z ->
  exists m e,
    Prim2SF (of_int z) = S754_finite false m e
    /\ (2 ^ 52 <= Z.pos m < 2 ^ 53)%Z
    /\ (-52 <= e <= 0)%Z
    /\ SFval (S754_finite false m e) == inject_Z z.
Proof.
  intros Hz. change (of_int z) with (PrimFloat.of_uint63 (Uint63.of_Z z)).
  rewrite of_uint63_spec, Uint63.of_Z_spec.
  rewrite Z.mod_small by (change wB with (2 ^ 63)%Z; lia).
  destruct z as [|p|p]; try lia.
  cbn [binary_normalize]. unfold binary_round.
  pose proof (Zdigits2_bounds (Z.pos p) ltac:(lia)) as Hdig.
  cbn [Zdigits2] in Hdig. set (d := Z.pos (digits2_pos p)) in *.
  assert (Hd : (1 <= d <= 53)%Z).
  { split; [unfold d; lia|].
    destruct (Z_le_gt_dec d 53) as [Hle | Hgt]; [exact Hle|].
    assert (2 ^ 53 <= 2 ^ (d - 1))%Z by (apply Z.pow_le_mono_r; lia). lia. }
  rewrite Z.add_0_r, fexp_normal by lia.
  pose proof (shl_align_spec p 0 (d - 53) ltac:(lia)) as [He Hm].
  destruct (shl_align p 0 (d - 53)) as [mz ez]. cbn [fst snd] in He, Hm.
  subst ez. replace (0 - (d - 53))%Z with (53 - d)%Z in Hm by lia.
  assert (Hmz : (2 ^ 52 <= Z.pos mz < 2 ^ 53)%Z).
  { rewrite Hm.
    assert (E1 : (2 ^ 52 = 2 ^ (d - 1) * 2 ^ (53 - d))%Z).
    { rewrite <- Z.pow_add_r by lia. f_equal. lia. }
    assert (E2 : (2 ^ 53 = 2 ^ d * 2 ^ (53 - d))%Z).
    { rewrite <- Z.pow_add_r by lia. f_equal. lia. }
    assert (Hp : (0 < 2 ^ (53 - d))%Z) by (apply Z.pow_pos_nonneg; lia).
    rewrite E1, E2. split.
    - apply Z.mul_le_mono_nonneg_r; lia.
    - apply Z.mul_lt_mono_pos_r; lia. }
  assert (Hdz : Zdigits2 (Z.pos mz) = 53%Z)
    by (apply Zdigits2_unique; [change (53 - 1)%Z with 52%Z|]; lia).
  assert (Hloc : located_rec (Z.pos mz) 1 (shr_record_of_loc (Z.pos mz) loc_Exact)).
  { unfold located_rec, located; cbn [shr_record_of_loc shr_m shr_r shr_s].
    rewrite Z.div_1_r, Z.mod_1_r. repeat split; lia. }
  destruct (binary_round_aux_normal (Z.pos mz) 1 (Z.pos mz) (d - 53) loc_Exact
              Hloc ltac:(lia) ltac:(rewrite Hdz; lia) ltac:(rewrite Hdz; lia)
              ltac:(rewrite Hdz; lia))
    as (m' & e' & k & Hres & _ & _ & Herr & Hcase & Hm').
  rewrite Hdz in Herr, Hcase. change (53 - 53)%Z with 0%Z in Herr, Hcase.
  change (1 * 2 ^ 0)%Z with 1%Z in Herr.
  assert (Hk : k = Z.pos mz) by lia.
  destruct Hcase as [[Hm'k He'] | (Hk53 & _)]; [|lia].
  exists m', e'. split; [exact Hres|]. split; [exact Hm'|]. split; [lia|].
  cbn [SFval]. rewrite Qmult_1_l, Hm'k, Hk, Hm, He'.
  rewrite inject_pow2_mul by lia.
  replace (d - 53 + 0)%Z with (- (53 - d))%Z by lia.
  rewrite Qpower_opp. field. apply Qpower_not_0. discriminate.
Qed.


Lemma is_nan_normal a : normal (Prim2SF a) -> PrimFloat.is_nan a = false.
Proof.
  intros Ha. unfold PrimFloat.is_nan.
  rewrite FloatAxioms.eqb_spec, (SFeqb_refl_normal _ Ha).
  reflexivity.
Qed.

Lemma is_zero_normal a : normal (Prim2SF a) -> PrimFloat.is_zero a = false.
Proof.
  intros (m & e & Ha & _). unfold PrimFloat.is_zero. rewrite FloatAxioms.eqb_spec, Ha.
  reflexivity.
Qed.

Lemma min64_normal a b :
  normal (Prim2SF a) -> normal (Prim2SF b) ->
  min64 a b = if PrimFloat.ltb b a then b else a.
Proof.
  intros Ha Hb. unfold min64.
  rewrite (is_nan_normal a Ha), (is_nan_normal b Hb), (is_zero_normal a Ha).
  reflexivity.
Qed.

(** *** What one rounding can do *)

Lemma rounded_normal P z : rounded P z -> normal z.
Proof. intros [Hn _]. exact Hn. Qed.

(** Rounding to nearest moves a value by at most one part in 2^53. *)
Lemma rounded_relative P z :
  rounded P z ->
  P * (1 - (1 # 9007199254740992)) <= SFval z
  /\ SFval z <= P * (1 + (1 # 9007199254740992)).
Proof.
  intros (_ & k & e & Hval & _ & Hlo & _ & Hup & Hdown).
  rewrite Hval. change (inject_Z (2 ^ 52)) with 4503599627370496 in Hlo.
  revert Hlo Hup Hdown. generalize (inject_Z k * 2 ^ e) (2 ^ e).
  intros v t Hlo Hup Hdown. split; lra.
Qed.

(** The exponent of a normal number between two powers of two. *)
Lemma normal_exponent (m : positive) (e L U : Z) :
  (2 ^ 52 <= Z.pos m < 2 ^ 53)%Z ->
  2 ^ L <= SFval (S754_finite false m e) ->
  SFval (S754_finite false m e) <= 2 ^ U ->
  (L - 52 <= e <= U - 52)%Z.
Proof.
  intros Hm HL HU. destruct (SFval_binade m e Hm) as [Hlo Hhi]. split.
  - assert (Hlt : 2 ^ L < 2 ^ (53 + e)) by (eapply Qle_lt_trans; eassumption).
    apply pow2_lt_inv in Hlt. lia.
  - assert (Hle : 2 ^ (52 + e) <= 2 ^ U) by (eapply Qle_trans; eassumption).
    apply (Qpower_le_compat_l_inv 2) in Hle; [lia | reflexivity].
Qed.

(** A value rounded to nearest does not pass the double next to a double
    it exceeds by less than a unit and a half. *)
Lemma rounded_grid (P : Q) z (c E : Z) :
  rounded P z ->
  (2 ^ 52 <= c)%Z -> (c + 2 <= 2 ^ 53)%Z ->
  P < (inject_Z c + (3 # 2)) * 2 ^ E ->
  SFval z <= inject_Z (c + 1) * 2 ^ E.
Proof.
  intros (_ & k & e & Hval & Hk & Hlo & _ & Hup & _) Hc1 Hc2 HP.
  rewrite Hval. pose proof (pow2_pos E) as HE. pose proof (pow2_pos e) as He.
  assert (Hc53 : inject_Z c + (3 # 2) <= inject_Z (2 ^ 53)).
  { apply Qle_trans with (inject_Z (c + 2)).
    - rewrite inject_Z_plus. change (inject_Z 2) with 2. lra.
    - apply inject_Z_le. exact Hc2. }
  assert (HeE : (e <= E)%Z).
  { assert (Hlt : 2 ^ (52 + e) < 2 ^ (53 + E)).
    { rewrite !pow2_add, <- !pow2_inject by lia.
      eapply Qle_lt_trans; [exact Hlo|]. eapply Qlt_le_trans; [exact HP|].
      apply Qmult_le_compat_r; [exact Hc53 | apply Qlt_le_weak, HE]. }
    apply pow2_lt_inv in Hlt. lia. }
  destruct (Z.eq_dec e E) as [-> | Hne].
  - apply Qmult_le_compat_r; [|apply Qlt_le_weak, HE].
    apply inject_Z_le.
    assert (Hlt : inject_Z k < inject_Z (c + 2)).
    { apply (Qmult_lt_r _ _ (2 ^ E) HE). rewrite inject_Z_plus.
      change (inject_Z 2) with 2.
      revert Hup HP. generalize (inject_Z k * 2 ^ E) (inject_Z c) (2 ^ E) HE.
      intros v a t Ht Hup HP. nra. }
    rewrite <- Zlt_Qlt in Hlt. lia.
  - apply Qle_trans with (inject_Z (2 ^ 53) * 2 ^ e).
    { apply Qmult_le_compat_r; [apply inject_Z_le, Hk | apply Qlt_le_weak, He]. }
    apply Qle_trans with (inject_Z (2 ^ 52) * 2 ^ E).
    { rewrite !pow2_inject, <- !pow2_add by lia. apply pow2_le. lia. }
    apply Qmult_le_compat_r; [apply inject_Z_le; lia | apply Qlt_le_weak, HE].
Qed.


(** *** The sizing rule, operation by operation *)

Lemma div_step (X Y : float) mX eX mY eY :
  Prim2SF X = S754_finite false mX eX ->
  Prim2SF Y = S754_finite false mY eY ->
  (2 ^ 52 <= Z.pos mX < 2 ^ 53)%Z ->
  (2 ^ 52 <= Z.pos mY < 2 ^ 53)%Z ->
  (-1000 <= eX - eY <= 1000)%Z ->
  rounded (value X / value Y) (Prim2SF (X / Y)).
Proof.
  intros HX HY HmX HmY He. unfold value.
  rewrite FloatAxioms.div_spec, HX, HY. apply SFdiv_rounded; assumption.
Qed.

Lemma mul_step (X Y : float) mX eX mY eY :
  Prim2SF X = S754_finite false mX eX ->
  Prim2SF Y = S754_finite false mY eY ->
  (2 ^ 52 <= Z.pos mX < 2 ^ 53)%Z ->
  (2 ^ 52 <= Z.pos mY < 2 ^ 53)%Z ->
  (-1100 <= eX + eY <= 900)%Z ->
  rounded (value X * value Y) (Prim2SF (X * Y)).
Proof.
  intros HX HY HmX HmY He. unfold value.
  rewrite FloatAxioms.mul_spec, HX, HY. apply SFmul_rounded; assumption.
Qed.

(** The double [bound / z] for a bound between 400 and 600 and a size [z]
    below 2^53. *)
Lemma quotient_double (bound z : Z) :
  (400 <= bound <= 600)%Z -> (0 < z < 2 ^ 53)%Z ->
  exists m e,
    Prim2SF (of_int bound / of_int z) = S754_finite false m e
    /\ (2 ^ 52 <= Z.pos m < 2 ^ 53)%Z
    /\ (-98 <= e <= -42)%Z
    /\ inject_Z z * value (of_int bound / of_int z)
       <= inject_Z bound * (1 + (1 # 9007199254740992)).
Proof.
  intros Hb Hz.
  destruct (of_int_normal bound ltac:(lia)) as (mb & eb & Hb2 & Hmb & Heb & Hvb).
  destruct (of_int_normal z Hz) as (mz & ez & Hz2 & Hmz & Hez & Hvz).
  pose proof (div_step _ _ _ _ _ _ Hb2 Hz2 Hmb Hmz ltac:(lia)) as Hr.
  unfold value in Hr at 1 2. rewrite Hb2, Hz2 in Hr.
  apply (rounded_ext _ (inject_Z bound / inject_Z z)) in Hr;
    [|rewrite Hvb, Hvz; reflexivity].
  pose proof (rounded_relative _ _ Hr) as [Hlo Hhi].
  destruct (rounded_normal _ _ Hr) as (m & e & Hres & Hm & _).
  fold (value (of_int bound / of_int z)) in Hlo, Hhi.
  assert (Hzq : 1 <= inject_Z z) by (apply (inject_Z_le 1); lia).
  assert (Hzq' : inject_Z z <= 9007199254740992)
    by (apply (inject_Z_le z (2 ^ 53)); lia).
  assert (Hbq : 400 <= inject_Z bound) by (apply (inject_Z_le 400); lia).
  assert (Hbq' : inject_Z bound <= 600) by (apply (inject_Z_le bound 600); lia).
  assert (Hq : inject_Z z * (inject_Z bound / inject_Z z) == inject_Z bound).
  { field. intros H0. lra. }
  assert (Hqlo : (1 # 35184372088832) <= inject_Z bound / inject_Z z).
  { apply Qle_shift_div_l; lra. }
  assert (Hqhi : inject_Z bound / inject_Z z <= 600).
  { apply Qle_shift_div_r; lra. }
  exists m, e. split; [exact Hres|]. split; [exact Hm|]. split.
  - unfold value in Hlo, Hhi. rewrite Hres in Hlo, Hhi.
    apply (normal_exponent m e (-46) 10 Hm).
    + change (2 ^ (-46)) with (1 # 70368744177664).
      revert Hlo Hqlo. generalize (inject_Z bound / inject_Z z). intros q. lra.
    + change (2 ^ 10) with 1024.
      revert Hhi Hqhi. generalize (inject_Z bound / inject_Z z). intros q. lra.
  - apply Qle_trans
      with (inject_Z z
            * (inject_Z bound / inject_Z z * (1 + (1 # 9007199254740992)))).
    + apply Qmult_le_l; [lra | exact Hhi].
    + rewrite Qmult_assoc, Hq. apply Qle_refl.
Qed.

Lemma leb_from_values (x y : float) :
  normal (Prim2SF x) -> normal (Prim2SF y) ->
  value x <= value y -> PrimFloat.leb x y = true.
Proof.
  intros Hx Hy Hle. rewrite FloatAxioms.leb_spec. apply SFleb_normal; assumption.
Qed.

Lemma ltb_true_values (x y : float) :
  normal (Prim2SF x) -> normal (Prim2SF y) ->
  PrimFloat.ltb x y = true -> value x < value y.
Proof.
  intros Hx Hy. rewrite FloatAxioms.ltb_spec. apply SFltb_true_normal; assumption.
Qed.

Lemma ltb_false_values (x y : float) :
  normal (Prim2SF x) -> normal (Prim2SF y) ->
  PrimFloat.ltb x y = false -> value y <= value x.
Proof.
  intros Hx Hy. rewrite FloatAxioms.ltb_spec. apply SFltb_false_normal; assumption.
Qed.

Lemma normal_intro x m e :
  x = S754_finite false m e ->
  (2 ^ 52 <= Z.pos m < 2 ^ 53)%Z -> (-1074 <= e <= 971)%Z -> normal x.
Proof. intros -> Hm He. exists m, e. repeat split; lia. Qed.

(** The ratio [Math.min(600 / w, 400 / h)] as a double. *)
Lemma ratio_double (w h : Z) :
  (0 < w < 2 ^ 53)%Z -> (0 < h < 2 ^ 53)%Z ->
  exists m e,
    Prim2SF (min64 (of_int 600 / of_int w) (of_int 400 / of_int h))
    = S754_finite false m e
    /\ (2 ^ 52 <= Z.pos m < 2 ^ 53)%Z
    /\ (-98 <= e <= -42)%Z
    /\ inject_Z w
       * value (min64 (of_int 600 / of_int w) (of_int 400 / of_int h))
       <= 600 * (1 + (1 # 9007199254740992))
    /\ inject_Z h
       * value (min64 (of_int 600 / of_int w) (of_int 400 / of_int h))
       <= 400 * (1 + (1 # 9007199254740992)).
Proof.
  intros Hw Hh.
  destruct (quotient_double 600 w ltac:(lia) Hw) as (ma & ea & Ha & Hma & Hea & Hwa).
  destruct (quotient_double 400 h ltac:(lia) Hh) as (mb & eb & Hb & Hmb & Heb & Hhb).
  set (a := (of_int 600 / of_int w)%float) in *.
  set (b := (of_int 400 / of_int h)%float) in *.
  assert (Hna : normal (Prim2SF a))
    by (apply (normal_intro _ ma ea); [assumption | lia | lia]).
  assert (Hnb : normal (Prim2SF b))
    by (apply (normal_intro _ mb eb); [assumption | lia | lia]).
  assert (Hwq : 0 < inject_Z w) by (apply (inject_Z_lt 0); lia).
  assert (Hhq : 0 < inject_Z h) by (apply (inject_Z_lt 0); lia).
  change (inject_Z 600) with 600 in Hwa. change (inject_Z 400) with 400 in Hhb.
  rewrite (min64_normal a b Hna Hnb).
  destruct (PrimFloat.ltb b a) eqn:Hlt.
  - apply (ltb_true_values b a Hnb Hna) in Hlt.
    exists mb, eb. repeat split; try assumption; try lia.
    apply Qle_trans with (inject_Z w * value a); [|exact Hwa].
    apply Qmult_le_l; [exact Hwq | apply Qlt_le_weak, Hlt].
  - apply (ltb_false_values b a Hnb Hna) in Hlt.
    exists ma, ea. repeat split; try assumption; try lia.
    apply Qle_trans with (inject_Z h * value b); [|exact Hhb].
    apply Qmult_le_l; [exact Hhq | exact Hlt].
Qed.

(** One dimension of the scaled size: the double [z * r] for the ratio
    [r], against the bound [c * 2 ^ E] it was scaled to. *)
Lemma scaled_dimension (z : Z) (r : float) m e (c E : Z) (top : float) :
  (0 < z < 2 ^ 53)%Z ->
  Prim2SF r = S754_finite false m e ->
  (2 ^ 52 <= Z.pos m < 2 ^ 53)%Z ->
  (-98 <= e <= -42)%Z ->
  (2 ^ 52 <= c)%Z -> (c + 2 <= 2 ^ 53)%Z ->
  normal (Prim2SF top) ->
  value top == inject_Z (c + 1) * 2 ^ E ->
  inject_Z z * value r < (inject_Z c + (3 # 2)) * 2 ^ E ->
  rounded (inject_Z z * value r) (Prim2SF (of_int z * r))
  /\ PrimFloat.leb (of_int z * r) top = true.
Proof.
  intros Hz Hr Hm He Hc1 Hc2 Htop Hval HP.
  destruct (of_int_normal z Hz) as (mz & ez & Hz2 & Hmz & Hez & Hvz).
  pose proof (mul_step _ _ _ _ _ _ Hz2 Hr Hmz Hm ltac:(lia)) as Hround.
  apply (rounded_ext _ (inject_Z z * value r)) in Hround.
  2:{ unfold value at 1. rewrite Hz2, Hvz. reflexivity. }
  split; [exact Hround|].
  apply leb_from_values; [exact (rounded_normal _ _ Hround) | exact Htop|].
  rewrite Hval. apply (rounded_grid _ _ c E Hround Hc1 Hc2 HP).
Qed.


Lemma of_int_value (z : Z) :
  (0 < z < 2 ^ 53)%Z ->
  normal (Prim2SF (of_int z)) /\ value (of_int z) == inject_Z z.
Proof.
  intros Hz.
  destruct (of_int_normal z Hz) as (m & e & Hz2 & Hm & He & Hv).
  split.
  - apply (normal_intro _ m e); [exact Hz2 | exact Hm | lia].
  - unfold value. rewrite Hz2. exact Hv.
Qed.

Lemma next_above_600 :
  PrimFloat.next_up 600 = 0x1.2c00000000001p+9%float
  /\ normal (Prim2SF 0x1.2c00000000001p+9)
  /\ value 0x1.2c00000000001p+9 == inject_Z (5277655813324800 + 1) * 2 ^ (-43).
Proof.
  split; [vm_compute; reflexivity|]. split.
  - apply (normal_intro _ 5277655813324801 (-43)); [vm_compute; reflexivity | lia | lia].
  - vm_compute. reflexivity.
Qed.

Lemma next_above_400 :
  PrimFloat.next_up 400 = 0x1.9000000000001p+8%float
  /\ normal (Prim2SF 0x1.9000000000001p+8)
  /\ value 0x1.9000000000001p+8 == inject_Z (7036874417766400 + 1) * 2 ^ (-44).
Proof.
  split; [vm_compute; reflexivity|]. split.
  - apply (normal_intro _ 7036874417766401 (-44)); [vm_compute; reflexivity | lia | lia].
  - vm_compute. reflexivity.
Qed.

Lemma value_600 : normal (Prim2SF (of_int 600)) /\ value (of_int 600) == 600.
Proof. apply (of_int_value 600). lia. Qed.

Lemma value_400 : normal (Prim2SF (of_int 400)) /\ value (of_int 400) == 400.
Proof. apply (of_int_value 400). lia. Qed.

(** Two roundings, one for each product, keep the cross products within
    [2u / (1 - u)] of each other, for [u = 2 ^ -53]. *)
Lemma cross_products (a b R TW TH : Q) :
  0 < a -> 0 < b -> 0 < R ->
  a * R * (1 - (1 # 9007199254740992)) <= TW ->
  TW <= a * R * (1 + (1 # 9007199254740992)) ->
  b * R * (1 - (1 # 9007199254740992)) <= TH ->
  TH <= b * R * (1 + (1 # 9007199254740992)) ->
  Qabs (TW * b - TH * a) <= TW * b * (2 # 9007199254740991).
Proof.
  intros Ha Hb HR H1 H2 H3 H4.
  assert (HX : 0 < a * b * R).
  { apply Qmult_lt_0_compat; [apply Qmult_lt_0_compat|]; assumption. }
  assert (A1 : a * b * R * (1 - (1 # 9007199254740992)) <= TW * b).
  { apply Qle_trans with (a * R * (1 - (1 # 9007199254740992)) * b).
    - apply Qle_lteq. right. ring.
    - apply Qmult_le_compat_r; [exact H1 | apply Qlt_le_weak, Hb]. }
  assert (A2 : TW * b <= a * b * R * (1 + (1 # 9007199254740992))).
  { apply Qle_trans with (a * R * (1 + (1 # 9007199254740992)) * b).
    - apply Qmult_le_compat_r; [exact H2 | apply Qlt_le_weak, Hb].
    - apply Qle_lteq. right. ring. }
  assert (A3 : a * b * R * (1 - (1 # 9007199254740992)) <= TH * a).
  { apply Qle_trans with (b * R * (1 - (1 # 9007199254740992)) * a).
    - apply Qle_lteq. right. ring.
    - apply Qmult_le_compat_r; [exact H3 | apply Qlt_le_weak, Ha]. }
  assert (A4 : TH * a <= a * b * R * (1 + (1 # 9007199254740992))).
  { apply Qle_trans with (b * R * (1 + (1 # 9007199254740992)) * a).
    - apply Qmult_le_compat_r; [exact H4 | apply Qlt_le_weak, Ha].
    - apply Qle_lteq. right. ring. }
  revert HX A1 A2 A3 A4.
  generalize (a * b * R) (TW * b) (TH * a). intros X U V HX A1 A2 A3 A4.
  apply Qabs_Qle_condition. split; lra.
Qed.

(** [scaled] on doubles, with the operations of [Binary64] spelled out. *)
Lemma scaled_binary64 (w h : Z) :
  scaled (num := float) {| width := w; height := h |}
  = if (PrimFloat.ltb (of_int 600) (of_int w)
        || PrimFloat.ltb (of_int 400) (of_int h))%bool
    then (of_int w * min64 (of_int 600 / of_int w) (of_int 400 / of_int h),
          of_int h * min64 (of_int 600 / of_int w) (of_int 400 / of_int h))%float
    else (of_int w, of_int h).
Proof. reflexivity. Qed.

(** C7, as amended.  In the doubles the code computes with, the size given
    to an image of positive intrinsic size (below 2^53, as every
    [unsigned long] is) fits the 600x400 box to within one unit in the last
    place: the width is at most the double next above 600 and the height at
    most the double next above 400.  Both are positive numbers, and their
    cross products with the intrinsic size, taken as real numbers, differ by
    at most [2 / (2 ^ 53 - 1)] of their size: the aspect ratio is kept up to
    the two roundings. *)
Theorem binary64_target_within_one_ulp (w h : Z) :
  (0 < w < 2 ^ 53)%Z -> (0 < h < 2 ^ 53)%Z ->
  let target := scaled (num := float) {| width := w; height := h |} in
  PrimFloat.leb (fst target) (PrimFloat.next_up 600) = true
  /\ PrimFloat.leb (snd target) (PrimFloat.next_up 400) = true
  /\ 0 < value (fst target)
  /\ 0 < value (snd target)
  /\ Qabs (value (fst target) * inject_Z h - value (snd target) * inject_Z w)
     <= value (fst target) * inject_Z h * (2 # 9007199254740991).
Proof.
  intros Hw Hh.
  destruct next_above_600 as (-> & Hn600 & Hv600).
  destruct next_above_400 as (-> & Hn400 & Hv400).
  destruct value_600 as [Hn6 Hv6]. destruct value_400 as [Hn4 Hv4].
  destruct (of_int_value w Hw) as [HnW HvW].
  destruct (of_int_value h Hh) as [HnH HvH].
  assert (Hwq : 0 < inject_Z w) by (apply (inject_Z_lt 0); lia).
  assert (Hhq : 0 < inject_Z h) by (apply (inject_Z_lt 0); lia).
  cbv zeta. rewrite (scaled_binary64 w h).
  destruct (PrimFloat.ltb (of_int 600) (of_int w)
            || PrimFloat.ltb (of_int 400) (of_int h))%bool eqn:Hbig;
    cbn [fst snd].
  - destruct (ratio_double w h Hw Hh) as (m & e & Hr & Hm & He & Hwr & Hhr).
    set (r := min64 (of_int 600 / of_int w) (of_int 400 / of_int h)) in *.
    assert (HR : 0 < value r).
    { unfold value. apply SFval_normal_pos.
      apply (normal_intro _ m e); [exact Hr | exact Hm | lia]. }
    destruct (scaled_dimension w r m e 5277655813324800 (-43)
                0x1.2c00000000001p+9 Hw Hr Hm He ltac:(lia) ltac:(lia)
                Hn600 Hv600) as [Hrw Hlew].
    { change (2 ^ (-43)) with (1 # 8796093022208).
      change (inject_Z 5277655813324800) with 5277655813324800.
      revert Hwr. generalize (inject_Z w * value r). intros q. lra. }
    destruct (scaled_dimension h r m e 7036874417766400 (-44)
                0x1.9000000000001p+8 Hh Hr Hm He ltac:(lia) ltac:(lia)
                Hn400 Hv400) as [Hrh Hleh].
    { change (2 ^ (-44)) with (1 # 17592186044416).
      change (inject_Z 7036874417766400) with 7036874417766400.
      revert Hhr. generalize (inject_Z h * value r). intros q. lra. }
    split; [exact Hlew|]. split; [exact Hleh|].
    split; [apply SFval_normal_pos, (rounded_normal _ _ Hrw)|].
    split; [apply SFval_normal_pos, (rounded_normal _ _ Hrh)|].
    destruct (rounded_relative _ _ Hrw) as [Hw1 Hw2].
    destruct (rounded_relative _ _ Hrh) as [Hh1 Hh2].
    apply (cross_products (inject_Z w) (inject_Z h) (value r)); assumption.
  - apply orb_false_iff in Hbig as [Hwide Htall].
    apply (ltb_false_values _ _ Hn6 HnW) in Hwide.
    apply (ltb_false_values _ _ Hn4 HnH) in Htall.
    split.
    { apply leb_from_values; [exact HnW | exact Hn600|].
      rewrite Hv600. change (2 ^ (-43)) with (1 # 8796093022208).
      change (inject_Z (5277655813324800 + 1)) with 5277655813324801.
      rewrite Hv6 in Hwide. lra. }
    split.
    { apply leb_from_values; [exact HnH | exact Hn400|].
      rewrite Hv400. change (2 ^ (-44)) with (1 # 17592186044416).
      change (inject_Z (7036874417766400 + 1)) with 7036874417766401.
      rewrite Hv4 in Htall. lra. }
    split; [apply SFval_normal_pos, HnW|].
    split; [apply SFval_normal_pos, HnH|].
    rewrite HvW, HvH.
    apply Qabs_Qle_condition.
    revert Hwq Hhq. generalize (inject_Z w) (inject_Z h). intros a b Ha Hb.
    assert (Hab : 0 < a * b) by (apply Qmult_lt_0_compat; assumption).
    assert (E : a * b - b * a == 0) by ring.
    rewrite E. revert Hab. generalize (a * b). intros q Hq. split; lra.
Qed.

End Binary64Rounding.

(** The 1x530 image again: its height is the double next above 400. *)
Lemma binary64_target_within_one_ulp_witness :
  0 < 1 < 2 ^ 53 /\ 0 < 530 < 2 ^ 53
  /\ PrimFloat.leb (snd (scaled (num := float) {| width := 1; height := 530 |}))
       (PrimFloat.next_up 400) = true.
Proof.
  split; [lia|]. split; [lia|].
  exact (proj1 (proj2 (binary64_target_within_one_ulp 1 530
                         ltac:(lia) ltac:(lia)))).
Defined.

(** ** The file-name guard of the download button *)

Lemma trimStart_blank (s : JSString) :
  forallb isWhiteSpace s = true -> trimStart s = [].
Proof.
  induction s as [|c s IH]; cbn; [reflexivity|].
  intros Hall. apply andb_true_iff in Hall as [Hc Hs].
  rewrite Hc. exact (IH Hs).
Qed.

Lemma trimStart_nil_blank (s : JSString) :
  trimStart s = [] -> forallb isWhiteSpace s = true.
Proof.
  induction s as [|c s IH]; cbn; [reflexivity|].
  destruct (isWhiteSpace c); [exact IH | discriminate].
Qed.

(** What [trimStart] returns does not begin with white space. *)
Lemma trimStart_head (s : JSString) c rest :
  trimStart s = c :: rest -> isWhiteSpace c = false.
Proof.
  induction s as [|c0 s IH]; cbn; [discriminate|].
  destruct (isWhiteSpace c0) eqn:Hc0; [exact IH|].
  intros Heq. inversion Heq; subst. exact Hc0.
Qed.

(** The guard [!imageName.trim()] fires exactly on the names made of white
    space only, the empty name included. *)
Lemma trim_falsy_iff (s : JSString) :
  falsy (trim s) = true <-> forallb isWhiteSpace s = true.
Proof.
  unfold trim, trimEnd. split.
  - intros Hfalsy.
    destruct (trimStart s) as [|c rest] eqn:Hstart.
    + apply trimStart_nil_blank, Hstart.
    + exfalso.
      pose proof (trimStart_head s c rest Hstart) as Hc.
      destruct (rev (trimStart (rev (c :: rest)))) as [|c' rest'] eqn:Hend;
        [|discriminate].
      apply (f_equal (@rev N)) in Hend. rewrite rev_involutive in Hend.
      cbn [rev] in Hend. apply trimStart_nil_blank in Hend.
      rewrite forallb_app in Hend. apply andb_true_iff in Hend as [_ Hlast].
      cbn in Hlast. rewrite Hc in Hlast. discriminate.
  - intros Hall. rewrite (trimStart_blank s Hall). reflexivity.
Qed.

(** C9.  With an empty or all-white-space name, [handleDownload] shows the
    alert and returns: it creates no link, starts no download, and does not
    even raise the [isDownloading] flag, however [store.toDataURL()] would
    have settled. *)
Theorem blank_name_aborts_download
    (imageName : JSString) (toDataURL : Promise JSString) (w : Window) :
  forallb isWhiteSpace imageName = true ->
  let w' := fst (handleDownload imageName toDataURL w) in
  snd (handleDownload imageName toDataURL w) = Returned
  /\ alerts w' = alerts w ++ [js "Please enter an image name"]
  /\ created w' = created w
  /\ downloads w' = downloads w
  /\ body w' = body w
  /\ isDownloading w' = isDownloading w.
Proof.
  intros Hblank. apply trim_falsy_iff in Hblank.
  unfold handleDownload. rewrite Hblank. cbn. repeat split.
Qed.

Lemma blank_name_aborts_download_witness :
  forallb isWhiteSpace (js "   ") = true
  /\ created (fst (handleDownload (js "   ")
                     (Fulfilled (js "data:image/png;base64,AAAA")) idleWindow))
     = []
  /\ downloads (fst (handleDownload (js "   ")
                       (Fulfilled (js "data:image/png;base64,AAAA")) idleWindow))
     = [].
Proof.
  split; [reflexivity|].
  pose proof (blank_name_aborts_download (js "   ")
                (Fulfilled (js "data:image/png;base64,AAAA")) idleWindow eq_refl)
    as (_ & _ & Hcreated & Hdownloads & _).
  split; [exact Hcreated | exact Hdownloads].
Defined.

(** With a proper name the same handler does start a download, named after
    the trimmed input. *)
Example named_download_starts :
  downloads (fst (handleDownload (js " my-design ")
                    (Fulfilled (js "data:image/png;base64,AAAA")) idleWindow))
  = [ {| href := js "data:image/png;base64,AAAA";
         download := js "my-design.png" |} ].
Proof. reflexivity. Qed.

(** * Further properties of the code *)

(** ** Removal, in detail *)

Section RemovalFacts.
Context {Id : Type} `{StrictEq Id}.
Implicit Types (m : UploadsManager Id) (u : Upload Id) (r : UploadRecord Id).
Implicit Types (arr : list (Upload Id)) (rs : list (UploadRecord Id)) (i j : Id).

Lemma filterE_undefined i arr :
  In Undefined arr -> filterE (keeps i) arr = inl TypeError.
Proof.
  induction arr as [|u arr IH]; cbn; [intros []|].
  intros [-> | Hin]; [reflexivity|].
  destruct u as [|r]; cbn; [reflexivity|].
  rewrite (IH Hin). reflexivity.
Qed.

Lemma not_all_records arr : all_records arr = false -> In Undefined arr.
Proof.
  induction arr as [|u arr IH]; cbn; [discriminate|].
  destruct u as [|r]; [left; reflexivity|].
  intros Hrest. right. exact (IH Hrest).
Qed.

Lemma deleteUpload_undefined i m :
  In Undefined (current m) -> deleteUpload i m = (m, Threw TypeError).
Proof.
  intros Hin. unfold deleteUpload. rewrite (filterE_undefined i _ Hin).
  reflexivity.
Qed.

Lemma undefined_stays (c : Call Id) m :
  In Undefined (current m) -> In Undefined (current (fst (perform c m))).
Proof.
  intros Hin. destruct c as [u | i | f | f]; cbn [perform fst].
  - rewrite current_addUpload. apply in_or_app. left. exact Hin.
  - rewrite (deleteUpload_undefined i m Hin). exact Hin.
  - exact Hin.
  - exact Hin.
Qed.

Lemma has_id_filtered i rs :
  has_id i (List.map Obj (List.filter (fun r => negb (strict_eq (id r) i)) rs))
  = false.
Proof.
  unfold has_id. induction rs as [|r rs IH]; cbn; [reflexivity|].
  destruct (strict_eq (id r) i) eqn:Hr; cbn; [exact IH|].
  rewrite Hr, IH. reflexivity.
Qed.

Lemma Obj_in_map r rs : In (Obj r) (List.map Obj rs) -> In r rs.
Proof.
  intros Hin. apply in_map_iff in Hin as (r' & Heq & Hr').
  inversion Heq; subst. exact Hr'.
Qed.

(** X1.  On a collection of records, [deleteUpload(id)] leaves no record
    whose id matches, keeps every record whose id does not match, and brings
    nothing in: what is left are records that were there. *)
Theorem deleteUpload_removes_every_match m i :
  all_records (current m) = true ->
  let m' := fst (deleteUpload i m) in
  has_id i (current m') = false
  /\ (forall r, In (Obj r) (current m) -> strict_eq (id r) i = false ->
                In (Obj r) (current m'))
  /\ (forall u, In u (current m') -> In u (current m))
  /\ (length (current m') <= length (current m))%nat.
Proof.
  intros Hall m'. subst m'.
  destruct (all_records_inv _ Hall) as [rs Hrs].
  rewrite (current_deleteUpload_records i m rs Hrs), Hrs.
  split; [apply has_id_filtered|]. split; [|split].
  - intros r Hin Hne. apply Obj_in_map in Hin.
    apply in_map. apply filter_In. split; [exact Hin|].
    rewrite Hne. reflexivity.
  - intros u Hin. apply in_map_iff in Hin as (r & <- & Hr).
    apply filter_In in Hr as [Hr _]. apply in_map. exact Hr.
  - rewrite !length_map. apply List.filter_length_le.
Qed.

(** X2.  Adding a record and then removing its id gives back the
    collection as it was, provided the id was not in use and is equal to
    itself under [===] (which [NaN] is not). *)
Theorem add_then_delete_restores m r :
  all_records (current m) = true ->
  has_id (id r) (current m) = false ->
  strict_eq (id r) (id r) = true ->
  current (fst (deleteUpload (id r) (addUpload (Obj r) m))) = current m.
Proof.
  intros Hall Hnew Hrefl.
  destruct (all_records_inv _ Hall) as [rs Hrs].
  assert (Hadd : current (addUpload (Obj r) m) = List.map Obj (rs ++ [r])).
  { rewrite current_addUpload, Hrs, List.map_app. reflexivity. }
  rewrite (current_deleteUpload_records _ _ _ Hadd), Hrs.
  rewrite List.filter_app. rewrite Hrs in Hnew.
  rewrite (filter_absent _ rs Hnew). cbn. rewrite Hrefl; cbn.
  rewrite app_nil_r. reflexivity.
Qed.

(** X3.  Removing the same id twice leaves what removing it once leaves,
    and two removals leave the same collection in either order; this holds
    on every collection, also one on which [deleteUpload] throws. *)
Theorem removals_repeat_and_commute m i j :
  current (fst (deleteUpload i (fst (deleteUpload i m))))
  = current (fst (deleteUpload i m))
  /\ current (fst (deleteUpload i (fst (deleteUpload j m))))
     = current (fst (deleteUpload j (fst (deleteUpload i m)))).
Proof.
  destruct (all_records (current m)) eqn:Hall.
  - destruct (all_records_inv _ Hall) as [rs Hrs].
    pose proof (current_deleteUpload_records i m rs Hrs) as Hi.
    pose proof (current_deleteUpload_records j m rs Hrs) as Hj.
    rewrite (current_deleteUpload_records i _ _ Hi).
    rewrite (current_deleteUpload_records i _ _ Hj).
    rewrite (current_deleteUpload_records j _ _ Hi).
    rewrite Hi, !filter_filter. split; f_equal.
    + apply filter_ext_bool. intros r. apply andb_diag.
    + apply filter_ext_bool. intros r. apply andb_comm.
  - apply not_all_records in Hall.
    rewrite (deleteUpload_undefined i m Hall).
    rewrite (deleteUpload_undefined j m Hall). cbn [fst].
    rewrite (deleteUpload_undefined i m Hall).
    rewrite (deleteUpload_undefined j m Hall). split; reflexivity.
Qed.

(** X4.  Once [undefined] sits in the collection, it stays: after any
    further calls, every [deleteUpload] throws a [TypeError], removes
    nothing and notifies nobody. *)
Theorem undefined_entry_blocks_every_removal m (cs : list (Call Id)) i :
  In Undefined (current m) ->
  In Undefined (current (performAll cs m))
  /\ deleteUpload i (performAll cs m) = (performAll cs m, Threw TypeError).
Proof.
  intros Hin.
  assert (Hstays : In Undefined (current (performAll cs m))).
  { revert m Hin. induction cs as [|c cs IH]; intros m Hin; cbn; [exact Hin|].
    apply IH, undefined_stays, Hin. }
  split; [exact Hstays | apply deleteUpload_undefined, Hstays].
Qed.

End RemovalFacts.

(** ** Subscriptions, in detail *)

Section SubscriptionFacts.
Context {Id : Type} `{StrictEq Id}.
Implicit Types (m : UploadsManager Id) (c : Call Id) (f g : Listener).

Lemma subscriptions_notify f m :
  subscriptions f (notifyListeners m) = subscriptions f m.
Proof. reflexivity. Qed.

(** A mutation, when it goes through, logs one call of [f] per subscription
    of [f]; the other calls log nothing. *)
Lemma times_called_perform f c m :
  times_called f (calls (fst (perform c m))) = times_called f (calls m)
  \/ times_called f (calls (fst (perform c m)))
     = (times_called f (calls m) + subscriptions f m)%nat.
Proof.
  destruct c as [u | i | g | g]; cbn [perform fst].
  - right. rewrite calls_addUpload, times_called_app, times_called_notify.
    reflexivity.
  - unfold deleteUpload.
    destruct (filterE (keeps i) (current m)) as [e | kept]; cbn [fst].
    + left. reflexivity.
    + right. cbn [notifyListeners calls rebind listeners].
      rewrite times_called_app, times_called_notify. reflexivity.
  - left. reflexivity.
  - left. reflexivity.
Qed.

Lemma filter_other_listener f g (fs : list Listener) :
  g <> f ->
  List.filter (fun l => Nat.eqb l g)
    (List.filter (fun l => negb (Nat.eqb l f)) fs)
  = List.filter (fun l => Nat.eqb l g) fs.
Proof.
  intros Hne. induction fs as [|l fs IH]; cbn; [reflexivity|].
  destruct (Nat.eqb l f) eqn:Hlf; cbn.
  - apply Nat.eqb_eq in Hlf. subst l.
    destruct (Nat.eqb f g) eqn:Hfg; [|exact IH].
    apply Nat.eqb_eq in Hfg. congruence.
  - rewrite IH. reflexivity.
Qed.

Lemma filter_same_listener f (fs : list Listener) :
  List.filter (fun l => Nat.eqb l f)
    (List.filter (fun l => negb (Nat.eqb l f)) fs) = [].
Proof.
  induction fs as [|l fs IH]; cbn; [reflexivity|].
  destruct (Nat.eqb l f) eqn:Hlf; cbn; [exact IH|].
  rewrite Hlf. exact IH.
Qed.

Lemma subscriptions_unsubscribe_same f m :
  subscriptions f (unsubscribe f m) = 0%nat.
Proof. exact (f_equal (@length nat) (filter_same_listener f (listeners m))). Qed.

Lemma subscriptions_unsubscribe_other f g m :
  g <> f -> subscriptions g (unsubscribe f m) = subscriptions g m.
Proof.
  intros Hne.
  exact (f_equal (@length nat) (filter_other_listener f g (listeners m) Hne)).
Qed.

Lemma subscriptions_subscribe f g m :
  subscriptions f (subscribe g m)
  = (subscriptions f m + (if Nat.eqb g f then 1 else 0))%nat.
Proof.
  unfold subscriptions.
  change (listeners (subscribe g m)) with (listeners m ++ [g]).
  rewrite List.filter_app, length_app. cbn.
  destruct (Nat.eqb g f); reflexivity.
Qed.

Lemma subscriptions_perform f c m :
  subscribes f c = false ->
  subscriptions f m = 0%nat ->
  subscriptions f (fst (perform c m)) = 0%nat.
Proof.
  intros Hc Hm. destruct c as [u | i | g | g]; cbn [perform fst].
  - exact Hm.
  - unfold deleteUpload.
    destruct (filterE (keeps i) (current m)); exact Hm.
  - cbn in Hc. rewrite subscriptions_subscribe, Hc, Hm. reflexivity.
  - destruct (Nat.eq_dec g f) as [-> | Hne].
    + apply subscriptions_unsubscribe_same.
    + rewrite subscriptions_unsubscribe_other; [exact Hm | congruence].
Qed.

(** X5.  After [unsubscribe], the listener is not called again, whatever
    calls follow, as long as it is not subscribed anew. *)
Theorem unsubscribed_listener_is_never_called f m (cs : list (Call Id)) :
  forallb (fun c => negb (subscribes f c)) cs = true ->
  times_called f (calls (performAll cs (unsubscribe f m)))
  = times_called f (calls m).
Proof.
  intros Hcs.
  assert (Hgen : forall m0,
             subscriptions f m0 = 0%nat ->
             times_called f (calls (performAll cs m0))
             = times_called f (calls m0)).
  { induction cs as [|c cs IH]; intros m0 Hm0; cbn; [reflexivity|].
    cbn in Hcs. apply andb_true_iff in Hcs as [Hc Hcs].
    apply negb_true_iff in Hc.
    rewrite (IH Hcs _ (subscriptions_perform f c m0 Hc Hm0)).
    destruct (times_called_perform f c m0) as [-> | ->]; [reflexivity|].
    rewrite Hm0. apply Nat.add_0_r. }
  rewrite Hgen; [reflexivity|]. apply subscriptions_unsubscribe_same.
Qed.

(** X6.  Unsubscribing [f] leaves every other listener subscribed as often
    as before, so the next call on the store calls it exactly as often as it
    would have been called without the unsubscription. *)
Theorem unsubscribe_spares_the_others f g m c :
  g <> f ->
  subscriptions g (unsubscribe f m) = subscriptions g m
  /\ times_called g (calls (fst (perform c (unsubscribe f m))))
     = times_called g (calls (fst (perform c m))).
Proof.
  intros Hne.
  pose proof (subscriptions_unsubscribe_other f g m Hne) as Hsub.
  split; [exact Hsub|].
  destruct c as [u | i | l | l]; cbn [perform fst]; try reflexivity.
  - rewrite !calls_addUpload, !times_called_app, !times_called_notify.
    fold (subscriptions g (unsubscribe f m)). fold (subscriptions g m).
    rewrite Hsub. reflexivity.
  - unfold deleteUpload.
    change (current (unsubscribe f m)) with (current m).
    destruct (filterE (keeps i) (current m)) as [e | kept]; cbn [fst];
      [reflexivity|].
    cbn [notifyListeners calls rebind listeners unsubscribe].
    rewrite !times_called_app, !times_called_notify.
    fold (subscriptions g m).
    change (length (List.filter (fun l => Nat.eqb l g)
                      (List.filter (fun l => negb (Nat.eqb l f)) (listeners m))))
      with (subscriptions g (unsubscribe f m)).
    rewrite Hsub. reflexivity.
Qed.

(** X7.  Subscribing the same function [n] more times makes it count [n]
    more times, so every change calls it that often; one unsubscribe removes
    all of its subscriptions at once. *)
Theorem repeated_subscriptions f m (n : nat) :
  subscriptions f (Nat.iter n (subscribe f) m) = (subscriptions f m + n)%nat
  /\ subscriptions f (unsubscribe f (Nat.iter n (subscribe f) m)) = 0%nat.
Proof.
  split.
  - induction n as [|n IH]; [symmetry; apply Nat.add_0_r|].
    rewrite Nat.iter_succ, subscriptions_subscribe, IH, Nat.eqb_refl. lia.
  - apply subscriptions_unsubscribe_same.
Qed.

(** X8.  A mutation that goes through binds [this.uploads] to a new
    reference: one that [getUploads()] returned at no earlier moment of the
    run, and that no listener was called with up to then.  [earlier] is the
    run up to any such moment and [later] what was called between it and the
    mutation.  A removal that removes nothing does so as well. *)
Theorem mutation_hands_out_new_reference (earlier later : list (Call Id)) c
    (l : positive) :
  is_mutation c = true ->
  snd (perform c (performAll later (performAll earlier initial))) = Returned ->
  handed_out (performAll earlier initial) l ->
  getUploads (fst (perform c (performAll later (performAll earlier initial))))
  <> l.
Proof.
  intros Hmut Hret Hout Heq.
  destruct (allocated_performAll earlier initial allocated_initial l Hout)
    as [old Hold].
  apply (heap_performAll later) in Hold.
  set (m := performAll later (performAll earlier initial)) in *.
  assert (Hnew : forall arr, heap m !! getUploads (notifyListeners (rebind arr m)) = None)
    by (intros arr; apply rebind_fresh).
  destruct c as [u | i | f | f]; cbn in Hmut; try discriminate;
    cbn [perform fst snd] in *.
  - unfold addUpload in Heq. rewrite <- Heq, Hnew in Hold. discriminate.
  - unfold deleteUpload in *.
    destruct (filterE (keeps i) (current m)) as [e | kept]; cbn [fst snd] in *;
      [discriminate|].
    rewrite <- Heq, Hnew in Hold. discriminate.
Qed.

End SubscriptionFacts.

(** ** The panel and the file picker *)

Section PanelFacts.
Context {Id : Type} `{StrictEq Id}.
Implicit Types (m : UploadsManager Id) (c : Call Id) (f g : Listener).
Implicit Types (log : list (Listener * positive)) (shown ref : positive).

Lemma rendered_app f shown log1 log2 :
  UploadPanel.rendered f shown (log1 ++ log2)
  = UploadPanel.rendered f (UploadPanel.rendered f shown log1) log2.
Proof. unfold UploadPanel.rendered. apply fold_left_app. Qed.

Lemma rendered_not_called f log :
  forall shown,
    times_called f log = 0%nat -> UploadPanel.rendered f shown log = shown.
Proof.
  unfold times_called.
  induction log as [|[g ref] log IH]; intros shown Hnone; cbn in *;
    [reflexivity|].
  destruct (Nat.eqb g f); [discriminate|]. apply IH, Hnone.
Qed.

Lemma rendered_notify f ref (fs : list Listener) :
  forall shown,
    shown = ref \/ In f fs ->
    UploadPanel.rendered f shown (List.map (fun l => (l, ref)) fs) = ref.
Proof.
  induction fs as [|l fs IH]; intros shown Hcase; cbn.
  - destruct Hcase as [-> | []]. reflexivity.
  - apply IH. destruct (Nat.eqb l f) eqn:Hlf; [left; reflexivity|].
    destruct Hcase as [-> | [-> | Hin]].
    + left. reflexivity.
    + rewrite Nat.eqb_refl in Hlf. discriminate.
    + right. exact Hin.
Qed.

Lemma panel_step f shown c m :
  unsubscribes f c = false ->
  In f (listeners m) ->
  UploadPanel.rendered f shown (calls m) = getUploads m ->
  In f (listeners (fst (perform c m)))
  /\ UploadPanel.rendered f shown (calls (fst (perform c m)))
     = getUploads (fst (perform c m)).
Proof.
  intros Hc Hin Hshown.
  assert (Hrebind : forall arr,
             In f (listeners (notifyListeners (rebind arr m)))
             /\ UploadPanel.rendered f shown (calls (notifyListeners (rebind arr m)))
                = getUploads (notifyListeners (rebind arr m))).
  { intros arr. split; [exact Hin|].
    cbn [notifyListeners calls rebind listeners uploads getUploads].
    rewrite rendered_app. apply rendered_notify. right. exact Hin. }
  destruct c as [u | i | g | g]; cbn [perform fst].
  - apply Hrebind.
  - unfold deleteUpload.
    destruct (filterE (keeps i) (current m)) as [e | kept]; cbn [fst].
    + split; assumption.
    + apply Hrebind.
  - split; [|exact Hshown].
    change (listeners (subscribe g m)) with (listeners m ++ [g]).
    apply in_or_app. left. exact Hin.
  - split; [|exact Hshown].
    change (listeners (unsubscribe g m))
      with (List.filter (fun l => negb (Nat.eqb l g)) (listeners m)).
    apply filter_In. split; [exact Hin|]. cbn in Hc.
    rewrite Nat.eqb_sym, Hc. reflexivity.
Qed.

(** X9.  A panel that mounted with a new listener keeps rendering the
    array [this.uploads] is bound to, after any calls on the store made
    while it stays mounted. *)
Theorem mounted_panel_renders_current f m (cs : list (Call Id)) :
  times_called f (calls m) = 0%nat ->
  forallb (fun c => negb (unsubscribes f c)) cs = true ->
  UploadPanel.rendered f (getUploads m) (calls (performAll cs (subscribe f m)))
  = getUploads (performAll cs (subscribe f m)).
Proof.
  intros Hnew Hcs.
  assert (Hgen : forall m0,
             In f (listeners m0) ->
             UploadPanel.rendered f (getUploads m) (calls m0) = getUploads m0 ->
             UploadPanel.rendered f (getUploads m) (calls (performAll cs m0))
             = getUploads (performAll cs m0)).
  { induction cs as [|c cs IH]; intros m0 Hin Hshown; cbn; [exact Hshown|].
    cbn in Hcs. apply andb_true_iff in Hcs as [Hc Hcs].
    apply negb_true_iff in Hc.
    destruct (panel_step f _ c m0 Hc Hin Hshown) as [Hin' Hshown'].
    exact (IH Hcs _ Hin' Hshown'). }
  apply Hgen.
  - change (listeners (subscribe f m)) with (listeners m ++ [f]).
    apply in_or_app. right. left. reflexivity.
  - change (calls (subscribe f m)) with (calls m).
    apply rendered_not_called, Hnew.
Qed.

End PanelFacts.

Lemma handleFileUpload_fold events (m : UploadsManager float) :
  UploadPanel.handleFileUpload events m
  = fold_left (fun m' e => UploadPanel.settle e m') events m.
Proof. destruct events; reflexivity. Qed.

(** X10.  Whatever the order in which the readers of a selection settle,
    the uploads already in the store stay where they are, each reader that
    loaded appends one record carrying its file's name and data URL, in
    settling order, and each subscription is called once per such record; a
    reader that failed, and an empty selection, change nothing and call
    nobody. *)
Theorem handleFileUpload_appends_loaded events (m : UploadsManager float) :
  current (UploadPanel.handleFileUpload events m)
  = current m ++ List.map Obj (UploadPanel.loaded events)
  /\ listeners (UploadPanel.handleFileUpload events m) = listeners m
  /\ (forall f,
        times_called f (calls (UploadPanel.handleFileUpload events m))
        = (times_called f (calls m)
           + length (UploadPanel.loaded events) * subscriptions f m)%nat).
Proof.
  rewrite handleFileUpload_fold. revert m.
  induction events as [|e events IH]; intros m; cbn [fold_left].
  - cbn. rewrite app_nil_r. repeat split. intros f. lia.
  - destruct (IH (UploadPanel.settle e m)) as (Hcur & Hls & Hcalls).
    destruct e as [fileName result now random | fileName];
      cbn [UploadPanel.settle UploadPanel.loaded] in *.
    + unfold onload in *.
      fold (UploadPanel.record_of fileName result now random) in *.
      set (r := UploadPanel.record_of fileName result now random) in *.
      split; [|split].
      * rewrite Hcur, current_addUpload, <- app_assoc. reflexivity.
      * rewrite Hls. reflexivity.
      * intros f. rewrite Hcalls, calls_addUpload, times_called_app,
          times_called_notify.
        change (subscriptions f (addUpload (Obj r) m)) with (subscriptions f m).
        fold (subscriptions f m). cbn [length List.map]. lia.
    + split; [exact Hcur|]. split; [exact Hls | exact Hcalls].
Qed.

(** ** Placing an image, in detail *)

(** Every integer from 0 to [bound] converts to a double that is not
    above [limit]; checked by running the comparison on each of them. *)
Lemma not_above_by_evaluation (bound : nat) (limit : float) :
  forallb (fun k => negb (gt (of_int (Z.of_nat k)) limit)) (seq 0 (S bound)) = true ->
  forall z, 0 <= z <= Z.of_nat bound -> gt (of_int z) limit = false.
Proof.
  intros Hall z Hz.
  rewrite forallb_forall in Hall.
  specialize (Hall (Z.to_nat z)).
  rewrite Z2Nat.id in Hall by lia.
  apply negb_true_iff, Hall. apply in_seq. lia.
Qed.

(** X11.  In doubles, an image whose width is at most 600 and whose
    height is at most 400, the bounds included, is placed with its intrinsic
    size, untouched. *)
Theorem image_within_box_keeps_size (w h : Z) (imageUrl : JSString) (p : Page float) :
  0 <= w <= 600 -> 0 <= h <= 400 ->
  scaled (num := float) {| width := w; height := h |} = (of_int w, of_int h)
  /\ addImageToCanvas (fun _ => LoadEvent w h) imageUrl p
     = (place imageUrl (of_int w, of_int h) p, Returned).
Proof.
  intros Hw Hh.
  assert (Hwide : gt (of_int w) (maxWidth (num := float)) = false).
  { apply (not_above_by_evaluation 600); [vm_compute; reflexivity | exact Hw]. }
  assert (Htall : gt (of_int h) (maxHeight (num := float)) = false).
  { apply (not_above_by_evaluation 400); [vm_compute; reflexivity | exact Hh]. }
  assert (Hsize : scaled (num := float) {| width := w; height := h |}
                  = (of_int w, of_int h)).
  { unfold scaled. cbv zeta. cbn [width height]. rewrite Hwide, Htall.
    reflexivity. }
  split; [exact Hsize|].
  unfold addImageToCanvas, getImageDimensions. rewrite Hsize. reflexivity.
Qed.

Lemma image_within_box_keeps_size_witness :
  0 <= 600 <= 600 /\ 0 <= 400 <= 400
  /\ scaled {| width := 600; height := 400 |} = (600%float, 400%float).
Proof.
  split; [lia|]. split; [lia|].
  pose proof (image_within_box_keeps_size 600 400 [] emptyPage
                ltac:(lia) ltac:(lia)) as [Hsize _].
  exact Hsize.
Defined.

Section Binary64Sizing.

Local Open Scope Q_scope.

(** Rounding to nearest is monotone against a double: a value not above
    a double rounds to a double not above it. *)
Lemma rounded_monotone_le (P : Q) z c :
  rounded P z -> normal c -> P <= SFval c -> SFval z <= SFval c.
Proof.
  intros (_ & k & e & Hval & Hk & Hlo & _ & Hup & _) (mc & ec & -> & Hmc & _) HP.
  rewrite Hval. pose proof (pow2_pos e) as He.
  destruct (SFval_binade mc ec Hmc) as [_ Hchi].
  destruct (Z_le_gt_dec e ec) as [Hle | Hgt].
  - assert (Hc : SFval (S754_finite false mc ec)
                 == inject_Z (Z.pos mc * 2 ^ (ec - e)) * 2 ^ e).
    { cbn [SFval]. rewrite Qmult_1_l, inject_pow2_mul by lia.
      rewrite <- Qmult_assoc, <- pow2_add.
      replace (ec - e + e)%Z with ec by lia. reflexivity. }
    rewrite Hc in HP |- *.
    apply Qmult_le_compat_r; [|apply Qlt_le_weak, He].
    apply inject_Z_le.
    assert (Hlt : inject_Z k < inject_Z (Z.pos mc * 2 ^ (ec - e) + 1)).
    { apply (Qmult_lt_r _ _ (2 ^ e) He). rewrite inject_Z_plus.
      change (inject_Z 1) with 1.
      revert Hup HP.
      generalize (inject_Z k * 2 ^ e) (inject_Z (Z.pos mc * 2 ^ (ec - e))) (2 ^ e) He.
      intros v a t Ht Hup HP. nra. }
    rewrite <- Zlt_Qlt in Hlt. lia.
  - exfalso.
    assert (Hlt : SFval (S754_finite false mc ec) < P).
    { eapply Qlt_le_trans; [exact Hchi|].
      eapply Qle_trans; [|exact Hlo].
      rewrite pow2_inject, <- pow2_add by lia. apply pow2_le. lia. }
    exact (Qlt_not_le _ _ Hlt HP).
Qed.

(** And a value not below a double rounds to a double not below it. *)
Lemma rounded_monotone_ge (P : Q) z c :
  rounded P z -> normal c -> SFval c <= P -> SFval c <= SFval z.
Proof.
  intros (_ & k & e & Hval & Hk & Hlo & Hhi & _ & Hdown) (mc & ec & -> & Hmc & _) HP.
  rewrite Hval. pose proof (pow2_pos e) as He.
  destruct (SFval_binade mc ec Hmc) as [_ Hchi].
  destruct (Z_le_gt_dec e ec) as [Hle | Hgt].
  - assert (Hc : SFval (S754_finite false mc ec)
                 == inject_Z (Z.pos mc * 2 ^ (ec - e)) * 2 ^ e).
    { cbn [SFval]. rewrite Qmult_1_l, inject_pow2_mul by lia.
      rewrite <- Qmult_assoc, <- pow2_add.
      replace (ec - e + e)%Z with ec by lia. reflexivity. }
    rewrite Hc in HP |- *.
    apply Qmult_le_compat_r; [|apply Qlt_le_weak, He].
    apply inject_Z_le.
    assert (Hlt : inject_Z (Z.pos mc * 2 ^ (ec - e)) < inject_Z (k + 1)).
    { apply (Qmult_lt_r _ _ (2 ^ e) He). rewrite inject_Z_plus.
      change (inject_Z 1) with 1.
      revert Hdown HP.
      generalize (inject_Z k * 2 ^ e) (inject_Z (Z.pos mc * 2 ^ (ec - e))) (2 ^ e) He.
      intros v a t Ht Hdown HP. nra. }
    rewrite <- Zlt_Qlt in Hlt. lia.
  - apply Qlt_le_weak. eapply Qlt_le_trans; [exact Hchi|].
    apply Qle_trans with (inject_Z (2 ^ 52) * 2 ^ e).
    { rewrite pow2_inject, <- pow2_add by lia. apply pow2_le. lia. }
    apply Qmult_le_compat_r; [|apply Qlt_le_weak, He].
    apply inject_Z_le.
    assert (Hlt : inject_Z (2 ^ 52) < inject_Z (k + 1)).
    { apply (Qmult_lt_r _ _ (2 ^ e) He). rewrite inject_Z_plus.
      change (inject_Z 1) with 1.
      revert Hdown Hlo.
      generalize (inject_Z k * 2 ^ e) (inject_Z (2 ^ 52)) (2 ^ e) He.
      intros v a t Ht Hdown Hlo. nra. }
    rewrite <- Zlt_Qlt in Hlt. lia.
Qed.

Lemma ltb_from_values (x y : float) :
  normal (Prim2SF x) -> normal (Prim2SF y) ->
  value x < value y -> PrimFloat.ltb x y = true.
Proof.
  intros Hx Hy Hlt. destruct (PrimFloat.ltb x y) eqn:Hb; [reflexivity|].
  apply (ltb_false_values x y Hx Hy) in Hb.
  exfalso. exact (Qlt_not_le _ _ Hlt Hb).
Qed.

(** The double [bound / z] is the quotient of the two integers, rounded. *)
Lemma quotient_rounded (bound z : Z) :
  (0 < bound < 2 ^ 53)%Z -> (0 < z < 2 ^ 53)%Z ->
  rounded (inject_Z bound / inject_Z z) (Prim2SF (of_int bound / of_int z)).
Proof.
  intros Hb Hz.
  destruct (of_int_normal bound Hb) as (mb & eb & Hb2 & Hmb & Heb & Hvb).
  destruct (of_int_normal z Hz) as (mz & ez & Hz2 & Hmz & Hez & Hvz).
  pose proof (div_step _ _ _ _ _ _ Hb2 Hz2 Hmb Hmz ltac:(lia)) as Hr.
  unfold value in Hr at 1 2. rewrite Hb2, Hz2 in Hr.
  apply (rounded_ext _ (inject_Z bound / inject_Z z)) in Hr;
    [exact Hr | rewrite Hvb, Hvz; reflexivity].
Qed.

Lemma one_normal : normal (Prim2SF 1) /\ value 1 == 1.
Proof.
  split.
  - apply (normal_intro _ 4503599627370496 (-52)); [vm_compute; reflexivity | lia | lia].
  - vm_compute. reflexivity.
Qed.

(** A bound divided by a larger size is a double not above 1. *)
Lemma quotient_at_most_one (bound z : Z) :
  (0 < bound < z)%Z -> (z < 2 ^ 53)%Z ->
  value (of_int bound / of_int z) <= 1.
Proof.
  intros Hb Hz. destruct one_normal as [Hn1 Hv1].
  rewrite <- Hv1. unfold value.
  apply (rounded_monotone_le (inject_Z bound / inject_Z z));
    [apply quotient_rounded; lia | exact Hn1|].
  fold (value 1). rewrite Hv1.
  assert (Hzq : 0 < inject_Z z) by (apply (inject_Z_lt 0); lia).
  apply Qle_shift_div_r; [exact Hzq|].
  rewrite Qmult_1_l. apply inject_Z_le. lia.
Qed.

(** The ratio does not enlarge, and it brings one side to the box. *)
Lemma ratio_reaches (w h : Z) :
  (0 < w < 2 ^ 53)%Z -> (0 < h < 2 ^ 53)%Z ->
  let r := min64 (of_int 600 / of_int w) (of_int 400 / of_int h) in
  ((600 < w)%Z \/ (400 < h)%Z -> value r <= 1)
  /\ (600 * (1 - (1 # 9007199254740992)) <= inject_Z w * value r
      \/ 400 * (1 - (1 # 9007199254740992)) <= inject_Z h * value r).
Proof.
  intros Hw Hh.
  pose proof (quotient_rounded 600 w ltac:(lia) Hw) as Hra.
  pose proof (quotient_rounded 400 h ltac:(lia) Hh) as Hrb.
  set (a := (of_int 600 / of_int w)%float) in *.
  set (b := (of_int 400 / of_int h)%float) in *.
  pose proof (rounded_normal _ _ Hra) as Hna.
  pose proof (rounded_normal _ _ Hrb) as Hnb.
  destruct (rounded_relative _ _ Hra) as [Halo _].
  destruct (rounded_relative _ _ Hrb) as [Hblo _].
  fold (value a) in Halo. fold (value b) in Hblo.
  assert (Hwq : 0 < inject_Z w) by (apply (inject_Z_lt 0); lia).
  assert (Hhq : 0 < inject_Z h) by (apply (inject_Z_lt 0); lia).
  assert (Hwa : 600 * (1 - (1 # 9007199254740992)) <= inject_Z w * value a).
  { apply Qle_trans
      with (inject_Z w * (inject_Z 600 / inject_Z w * (1 - (1 # 9007199254740992)))).
    - apply Qle_lteq. right. change (inject_Z 600) with 600. field.
      intros H0. rewrite H0 in Hwq. exact (Qlt_irrefl _ Hwq).
    - apply Qmult_le_l; [exact Hwq | exact Halo]. }
  assert (Hhb : 400 * (1 - (1 # 9007199254740992)) <= inject_Z h * value b).
  { apply Qle_trans
      with (inject_Z h * (inject_Z 400 / inject_Z h * (1 - (1 # 9007199254740992)))).
    - apply Qle_lteq. right. change (inject_Z 400) with 400. field.
      intros H0. rewrite H0 in Hhq. exact (Qlt_irrefl _ Hhq).
    - apply Qmult_le_l; [exact Hhq | exact Hblo]. }
  cbv zeta. rewrite (min64_normal a b Hna Hnb).
  destruct (PrimFloat.ltb b a) eqn:Hlt.
  - apply (ltb_true_values b a Hnb Hna) in Hlt. split; [|right; exact Hhb].
    intros [Hbig | Hbig].
    + apply Qle_trans with (value a); [apply Qlt_le_weak, Hlt|].
      apply quotient_at_most_one; lia.
    + apply quotient_at_most_one; lia.
  - apply (ltb_false_values b a Hnb Hna) in Hlt. split; [|left; exact Hwa].
    intros [Hbig | Hbig].
    + apply quotient_at_most_one; lia.
    + apply Qle_trans with (value b); [exact Hlt|].
      apply quotient_at_most_one; lia.
Qed.

Lemma next_below_600 :
  PrimFloat.next_down 600 = 0x1.2bfffffffffffp+9%float
  /\ normal (Prim2SF 0x1.2bfffffffffffp+9)
  /\ value 0x1.2bfffffffffffp+9 == 5277655813324799 * (1 # 8796093022208).
Proof.
  split; [vm_compute; reflexivity|]. split.
  - apply (normal_intro _ 5277655813324799 (-43)); [vm_compute; reflexivity | lia | lia].
  - vm_compute. reflexivity.
Qed.

Lemma next_below_400 :
  PrimFloat.next_down 400 = 0x1.8ffffffffffffp+8%float
  /\ normal (Prim2SF 0x1.8ffffffffffffp+8)
  /\ value 0x1.8ffffffffffffp+8 == 7036874417766399 * (1 # 17592186044416).
Proof.
  split; [vm_compute; reflexivity|]. split.
  - apply (normal_intro _ 7036874417766399 (-44)); [vm_compute; reflexivity | lia | lia].
  - vm_compute. reflexivity.
Qed.

(** One scaled dimension, against the size it started from and against
    a double [low] below what the ratio brings it to. *)
Lemma scaled_dimension_between (z : Z) (r : float) m e (low : float) :
  (0 < z < 2 ^ 53)%Z ->
  Prim2SF r = S754_finite false m e ->
  (2 ^ 52 <= Z.pos m < 2 ^ 53)%Z ->
  (-98 <= e <= -42)%Z ->
  (value r <= 1 -> PrimFloat.leb (of_int z * r) (of_int z) = true)
  /\ (normal (Prim2SF low) -> value low <= inject_Z z * value r ->
      PrimFloat.leb low (of_int z * r) = true).
Proof.
  intros Hz Hr Hm He.
  destruct (of_int_normal z Hz) as (mz & ez & Hz2 & Hmz & Hez & Hvz).
  pose proof (mul_step _ _ _ _ _ _ Hz2 Hr Hmz Hm ltac:(lia)) as Hround.
  apply (rounded_ext _ (inject_Z z * value r)) in Hround.
  2:{ unfold value at 1. rewrite Hz2, Hvz. reflexivity. }
  destruct (of_int_value z Hz) as [Hnz Hvz'].
  assert (Hzq : 0 < inject_Z z) by (apply (inject_Z_lt 0); lia).
  split.
  - intros Hone.
    apply leb_from_values; [exact (rounded_normal _ _ Hround) | exact Hnz|].
    apply (rounded_monotone_le _ _ _ Hround Hnz).
    fold (value (of_int z)). rewrite Hvz'.
    rewrite <- (Qmult_1_r (inject_Z z)) at 2.
    apply Qmult_le_l; [exact Hzq | exact Hone].
  - intros Hnlow Hlow.
    apply leb_from_values; [exact Hnlow | exact (rounded_normal _ _ Hround)|].
    apply (rounded_monotone_ge _ _ _ Hround Hnlow). exact Hlow.
Qed.

(** X13.  In doubles, the rule never enlarges an image of positive
    intrinsic size: the width and the height it gives are at most the
    intrinsic ones.  And when the image exceeds the box, one of the two
    reaches the box to within one unit in the last place: the width is at
    least the double next below 600, or the height at least the double next
    below 400. *)
Theorem binary64_target_never_enlarges (w h : Z) :
  (0 < w < 2 ^ 53)%Z -> (0 < h < 2 ^ 53)%Z ->
  let target := scaled (num := float) {| width := w; height := h |} in
  PrimFloat.leb (fst target) (of_int w) = true
  /\ PrimFloat.leb (snd target) (of_int h) = true
  /\ ((600 < w)%Z \/ (400 < h)%Z ->
      PrimFloat.leb (PrimFloat.next_down 600) (fst target) = true
      \/ PrimFloat.leb (PrimFloat.next_down 400) (snd target) = true).
Proof.
  intros Hw Hh.
  destruct next_below_600 as (-> & Hn600 & Hv600).
  destruct next_below_400 as (-> & Hn400 & Hv400).
  destruct value_600 as [Hn6 Hv6]. destruct value_400 as [Hn4 Hv4].
  destruct (of_int_value w Hw) as [HnW HvW].
  destruct (of_int_value h Hh) as [HnH HvH].
  cbv zeta. rewrite (scaled_binary64 w h).
  destruct (PrimFloat.ltb (of_int 600) (of_int w)
            || PrimFloat.ltb (of_int 400) (of_int h))%bool eqn:Hbig;
    cbn [fst snd].
  - destruct (ratio_double w h Hw Hh) as (m & e & Hr & Hm & He & _).
    destruct (ratio_reaches w h Hw Hh) as [Hone Hreach].
    set (r := min64 (of_int 600 / of_int w) (of_int 400 / of_int h)) in *.
    assert (Hbigz : (600 < w)%Z \/ (400 < h)%Z).
    { apply orb_true_iff in Hbig as [Hb | Hb].
      - left. apply (ltb_true_values _ _ Hn6 HnW) in Hb.
        rewrite Hv6, HvW in Hb. change 600 with (inject_Z 600) in Hb.
        rewrite <- Zlt_Qlt in Hb. exact Hb.
      - right. apply (ltb_true_values _ _ Hn4 HnH) in Hb.
        rewrite Hv4, HvH in Hb. change 400 with (inject_Z 400) in Hb.
        rewrite <- Zlt_Qlt in Hb. exact Hb. }
    destruct (scaled_dimension_between w r m e 0x1.2bfffffffffffp+9 Hw Hr Hm He)
      as [Hwle Hwge].
    destruct (scaled_dimension_between h r m e 0x1.8ffffffffffffp+8 Hh Hr Hm He)
      as [Hhle Hhge].
    split; [exact (Hwle (Hone Hbigz))|]. split; [exact (Hhle (Hone Hbigz))|].
    intros _. destruct Hreach as [Hreach | Hreach].
    + left. apply (Hwge Hn600). rewrite Hv600.
      revert Hreach. generalize (inject_Z w * value r). intros q. lra.
    + right. apply (Hhge Hn400). rewrite Hv400.
      revert Hreach. generalize (inject_Z h * value r). intros q. lra.
  - apply orb_false_iff in Hbig as [Hwide Htall].
    apply (ltb_false_values _ _ Hn6 HnW) in Hwide.
    apply (ltb_false_values _ _ Hn4 HnH) in Htall.
    rewrite Hv6, HvW in Hwide. rewrite Hv4, HvH in Htall.
    change 600 with (inject_Z 600) in Hwide. change 400 with (inject_Z 400) in Htall.
    rewrite <- Zle_Qle in Hwide, Htall.
    split; [apply leb_from_values; [exact HnW | exact HnW | apply Qle_refl]|].
    split; [apply leb_from_values; [exact HnH | exact HnH | apply Qle_refl]|].
    intros [Hbad | Hbad]; lia.
Qed.

End Binary64Sizing.

(** A 1200x300 banner becomes 600 wide, no wider than it was. *)
Lemma binary64_target_never_enlarges_witness :
  0 < 1200 < 2 ^ 53 /\ 0 < 300 < 2 ^ 53
  /\ PrimFloat.leb (fst (scaled (num := float) {| width := 1200; height := 300 |}))
       (of_int 1200) = true.
Proof.
  split; [lia|]. split; [lia|].
  exact (proj1 (binary64_target_never_enlarges 1200 300 ltac:(lia) ltac:(lia))).
Defined.

(** ** The download button, in detail *)

Lemma forallb_rev {A : Type} (p : A -> bool) (xs : list A) :
  forallb p (rev xs) = forallb p xs.
Proof.
  induction xs as [|x xs IH]; cbn; [reflexivity|].
  rewrite forallb_app, IH; cbn. rewrite andb_true_r. apply andb_comm.
Qed.

Lemma trimStart_split (s : JSString) :
  exists pre, s = pre ++ trimStart s /\ forallb isWhiteSpace pre = true.
Proof.
  induction s as [|c s (pre & Hs & Hpre)]; cbn.
  - exists []. split; reflexivity.
  - destruct (isWhiteSpace c) eqn:Hc.
    + exists (c :: pre). cbn. rewrite Hc, Hpre. split; [congruence | reflexivity].
    + exists []. split; reflexivity.
Qed.

Lemma trimEnd_split (s : JSString) :
  exists post, s = trimEnd s ++ post /\ forallb isWhiteSpace post = true.
Proof.
  unfold trimEnd. destruct (trimStart_split (rev s)) as (pre & Hs & Hpre).
  exists (rev pre). split.
  - rewrite <- rev_app_distr, <- Hs, rev_involutive. reflexivity.
  - rewrite forallb_rev. exact Hpre.
Qed.

Lemma trim_head (s : JSString) c rest :
  trim s = c :: rest -> isWhiteSpace c = false.
Proof.
  unfold trim. intros Hcore.
  destruct (trimEnd_split (trimStart s)) as (post & Hs & _).
  rewrite Hcore in Hs. exact (trimStart_head s c (rest ++ post) Hs).
Qed.

Lemma trim_last (s : JSString) c rest :
  rev (trim s) = c :: rest -> isWhiteSpace c = false.
Proof.
  unfold trim, trimEnd. rewrite rev_involutive. apply trimStart_head.
Qed.

(** X14.  With a name that is not blank and a rendering that succeeds,
    exactly one download starts, of the rendered data, named after the core
    of the name followed by [.png]: the name is white space, the core, white
    space, and the core is not empty and neither begins nor ends with white
    space (white space inside it is kept). *)
Theorem download_is_named_after_the_core
    (imageName dataUrl : JSString) (w : Window) :
  forallb isWhiteSpace imageName = false ->
  exists pre core post,
    imageName = pre ++ core ++ post
    /\ forallb isWhiteSpace pre = true
    /\ forallb isWhiteSpace post = true
    /\ (exists c rest, core = c :: rest /\ isWhiteSpace c = false)
    /\ (exists c rest, rev core = c :: rest /\ isWhiteSpace c = false)
    /\ downloads (fst (handleDownload imageName (Fulfilled dataUrl) w))
       = downloads w ++ [ {| href := dataUrl; download := core ++ js ".png" |} ].
Proof.
  intros Hname.
  destruct (trimStart_split imageName) as (pre & Hpre_eq & Hpre).
  destruct (trimEnd_split (trimStart imageName)) as (post & Hpost_eq & Hpost).
  exists pre, (trim imageName), post.
  assert (Hfalsy : falsy (trim imageName) = false).
  { destruct (falsy (trim imageName)) eqn:Hf; [|reflexivity].
    apply trim_falsy_iff in Hf. congruence. }
  split; [|split; [exact Hpre | split; [exact Hpost|]]].
  { unfold trim. rewrite <- Hpost_eq. exact Hpre_eq. }
  split; [|split].
  - destruct (trim imageName) as [|c rest] eqn:Hcore; [discriminate|].
    exists c, rest. split; [reflexivity | exact (trim_head _ _ _ Hcore)].
  - destruct (rev (trim imageName)) as [|c rest] eqn:Hrev.
    + apply (f_equal (@rev N)) in Hrev. rewrite rev_involutive in Hrev.
      rewrite Hrev in Hfalsy. discriminate.
    + exists c, rest. split; [reflexivity | exact (trim_last _ _ _ Hrev)].
  - unfold handleDownload. rewrite Hfalsy. reflexivity.
Qed.

Lemma download_is_named_after_the_core_witness :
  forallb isWhiteSpace (js " my design  ") = false
  /\ exists pre core post,
       js " my design  " = pre ++ core ++ post
       /\ forallb isWhiteSpace pre = true
       /\ forallb isWhiteSpace post = true
       /\ (exists c rest, core = c :: rest /\ isWhiteSpace c = false)
       /\ (exists c rest, rev core = c :: rest /\ isWhiteSpace c = false)
       /\ downloads (fst (handleDownload (js " my design  ")
                            (Fulfilled (js "data:image/png;base64,AAAA")) idleWindow))
          = downloads idleWindow
            ++ [ {| href := js "data:image/png;base64,AAAA";
                    download := core ++ js ".png" |} ].
Proof.
  split; [reflexivity|].
  exact (download_is_named_after_the_core (js " my design  ")
           (js "data:image/png;base64,AAAA") idleWindow eq_refl).
Defined.

(** X15.  With a name that is not blank, no alert is shown and the page
    body ends as it was; the handler lowers [isDownloading] again whenever
    [store.toDataURL()] settles, starting one download if it fulfilled and
    logging one error and starting none if it rejected; if it never settles,
    the flag stays raised for good and nothing is downloaded. *)
Theorem handleDownload_by_outcome
    (imageName : JSString) (toDataURL : Promise JSString) (w : Window) :
  forallb isWhiteSpace imageName = false ->
  let w' := fst (handleDownload imageName toDataURL w) in
  alerts w' = alerts w
  /\ body w' = body w
  /\ match toDataURL with
     | Fulfilled dataUrl =>
         snd (handleDownload imageName toDataURL w) = Returned
         /\ isDownloading w' = false
         /\ length (downloads w') = S (length (downloads w))
         /\ created w' = created w ++ [ {| href := dataUrl;
                                           download := trim imageName ++ js ".png" |} ]
         /\ errors w' = errors w
     | Rejected error =>
         snd (handleDownload imageName toDataURL w) = Returned
         /\ isDownloading w' = false
         /\ downloads w' = downloads w
         /\ created w' = created w
         /\ errors w' = errors w ++ [(js "Download failed:", error)]
     | Pending =>
         snd (handleDownload imageName toDataURL w) = Suspended
         /\ isDownloading w' = true
         /\ downloads w' = downloads w
         /\ created w' = created w
         /\ errors w' = errors w
     end.
Proof.
  intros Hname.
  assert (Hfalsy : falsy (trim imageName) = false).
  { destruct (falsy (trim imageName)) eqn:Hf; [|reflexivity].
    apply trim_falsy_iff in Hf. congruence. }
  unfold handleDownload. rewrite Hfalsy.
  destruct toDataURL as [dataUrl | error |]; cbn; repeat split.
  rewrite length_app. cbn. lia.
Qed.

Lemma handleDownload_by_outcome_witness :
  forallb isWhiteSpace (js "my-design") = false
  /\ isDownloading (fst (handleDownload (js "my-design") Pending idleWindow)) = true
  /\ isDownloading
       (fst (handleDownload (js "my-design") (Rejected TypeError) idleWindow))
     = false.
Proof.
  split; [reflexivity|].
  pose proof (handleDownload_by_outcome (js "my-design") Pending idleWindow eq_refl)
    as (_ & _ & _ & Hflag & _).
  pose proof (handleDownload_by_outcome (js "my-design") (Rejected TypeError)
                idleWindow eq_refl)
    as (_ & _ & _ & Hcleared & _).
  split; [exact Hflag | exact Hcleared].
Defined.

(** ** The sections of the side panel *)

Lemma custom_name_kept (section : SidePanel.SectionDef) :
  SidePanel.name
    (if bool_decide (SidePanel.name section = js "upload")
     then SidePanel.CustomUploadSectionDefinition
     else section)
  = SidePanel.name section.
Proof.
  destruct (bool_decide (SidePanel.name section = js "upload")) eqn:Hup;
    [|reflexivity].
  apply bool_decide_eq_true in Hup. rewrite Hup. reflexivity.
Qed.

(** X16.  Whatever sections the library ships, the side panel shows none
    named templates, text, elements, background or photos, and shows the
    others under their own names and in the library's order. *)
Theorem customSections_hides_the_five (DEFAULT_SECTIONS : list SidePanel.SectionDef) :
  (forall section,
      In section (SidePanel.customSections DEFAULT_SECTIONS) ->
      SidePanel.includes SidePanel.hidden (SidePanel.name section) = false)
  /\ List.map SidePanel.name (SidePanel.customSections DEFAULT_SECTIONS)
     = List.filter (fun n => negb (SidePanel.includes SidePanel.hidden n))
         (List.map SidePanel.name DEFAULT_SECTIONS).
Proof.
  assert (Hnames :
    List.map SidePanel.name (SidePanel.customSections DEFAULT_SECTIONS)
    = List.filter (fun n => negb (SidePanel.includes SidePanel.hidden n))
        (List.map SidePanel.name DEFAULT_SECTIONS)).
  { unfold SidePanel.customSections, SidePanel.filteredSections.
    rewrite List.map_map, filter_map_swap.
    apply List.map_ext. exact custom_name_kept. }
  split; [|exact Hnames].
  intros section Hin.
  apply (in_map SidePanel.name) in Hin. rewrite Hnames in Hin.
  apply filter_In in Hin as [_ Hshown]. apply negb_true_iff, Hshown.
Qed.

(** X17.  The custom uploads section is shown exactly when the library
    ships a section named upload, and it then stands wherever one stood; every
    shown section of that name is the custom one, and a section of another
    name is shown exactly when the library ships it and it is not hidden. *)
Theorem customSections_swaps_upload (DEFAULT_SECTIONS : list SidePanel.SectionDef) :
  (In SidePanel.CustomUploadSectionDefinition
      (SidePanel.customSections DEFAULT_SECTIONS)
   <-> exists section,
         In section DEFAULT_SECTIONS /\ SidePanel.name section = js "upload")
  /\ (forall section,
        In section (SidePanel.customSections DEFAULT_SECTIONS) ->
        SidePanel.name section = js "upload" ->
        section = SidePanel.CustomUploadSectionDefinition)
  /\ (forall section,
        SidePanel.name section <> js "upload" ->
        (In section (SidePanel.customSections DEFAULT_SECTIONS)
         <-> In section DEFAULT_SECTIONS
             /\ SidePanel.includes SidePanel.hidden (SidePanel.name section) = false)).
Proof.
  unfold SidePanel.customSections, SidePanel.filteredSections.
  split; [split|split].
  - intros Hin. apply in_map_iff in Hin as (section & Hout & Hin).
    apply filter_In in Hin as [Hin _].
    destruct (bool_decide (SidePanel.name section = js "upload")) eqn:Hup.
    + apply bool_decide_eq_true in Hup. exists section. split; assumption.
    + subst section. exists SidePanel.CustomUploadSectionDefinition.
      split; [exact Hin | reflexivity].
  - intros (section & Hin & Hup). apply in_map_iff. exists section. split.
    + rewrite (bool_decide_eq_true_2 _ Hup). reflexivity.
    + apply filter_In. split; [exact Hin|]. rewrite Hup. reflexivity.
  - intros section Hin Hup. apply in_map_iff in Hin as (section0 & Hout & _).
    destruct (bool_decide (SidePanel.name section0 = js "upload")) eqn:Hup0;
      [symmetry; exact Hout|].
    apply bool_decide_eq_false in Hup0. subst section0. contradiction.
  - intros section Hother. split.
    + intros Hin. apply in_map_iff in Hin as (section0 & Hout & Hin).
      destruct (bool_decide (SidePanel.name section0 = js "upload")) eqn:Hup0.
      * subst section. contradiction Hother. reflexivity.
      * subst section0. apply filter_In in Hin as [Hin Hshown].
        split; [exact Hin | apply negb_true_iff, Hshown].
    + intros [Hin Hshown]. apply in_map_iff. exists section. split.
      * rewrite (bool_decide_eq_false_2 _ Hother). reflexivity.
      * apply filter_In. split; [exact Hin|]. rewrite Hshown. reflexivity.
Qed.

(** ** The further properties on concrete sessions *)

(** Removing the photo from [session] leaves no record with its id. *)
Lemma deleteUpload_removes_every_match_witness :
  all_records (current session) = true
  /\ has_id (id photo) (current (fst (deleteUpload (id photo) session))) = false.
Proof.
  split; [reflexivity|].
  exact (proj1 (deleteUpload_removes_every_match session (id photo) eq_refl)).
Defined.

(** Uploading the photo next to the logo and removing it again. *)
Lemma add_then_delete_restores_witness :
  all_records (current (addUpload (Obj logo) mounted)) = true
  /\ has_id (id photo) (current (addUpload (Obj logo) mounted)) = false
  /\ strict_eq (id photo) (id photo) = true
  /\ current (fst (deleteUpload (id photo)
                     (addUpload (Obj photo) (addUpload (Obj logo) mounted))))
     = current (addUpload (Obj logo) mounted).
Proof.
  split; [reflexivity|]. split; [reflexivity|]. split; [reflexivity|].
  exact (add_then_delete_restores (addUpload (Obj logo) mounted) photo
           eq_refl eq_refl eq_refl).
Defined.

(** In [poisoned], the photo cannot be removed any more, also after a
    further upload and a further attempt. *)
Lemma undefined_entry_blocks_every_removal_witness :
  In Undefined (current poisoned)
  /\ deleteUpload (id photo)
       (performAll [CallAdd (Obj photo); CallDelete (id logo)] poisoned)
     = (performAll [CallAdd (Obj photo); CallDelete (id logo)] poisoned,
        Threw TypeError).
Proof.
  assert (Hin : In Undefined (current poisoned)).
  { right. left. reflexivity. }
  split; [exact Hin|].
  exact (proj2 (undefined_entry_blocks_every_removal poisoned
                  [CallAdd (Obj photo); CallDelete (id logo)] (id photo) Hin)).
Defined.

(** The panel of [session], once unsubscribed, misses the next two changes. *)
Lemma unsubscribed_listener_is_never_called_witness :
  forallb (fun c => negb (subscribes 0%nat c))
    [CallAdd (Obj photo); CallDelete (id logo)] = true
  /\ times_called 0%nat
       (calls (performAll [CallAdd (Obj photo); CallDelete (id logo)]
                 (unsubscribe 0%nat session)))
     = 2%nat.
Proof.
  split; [reflexivity|].
  exact (unsubscribed_listener_is_never_called 0%nat session
           [CallAdd (Obj photo); CallDelete (id logo)] eq_refl).
Defined.

(** A second panel, listener 1, is called as before when the first leaves. *)
Lemma unsubscribe_spares_the_others_witness :
  1%nat <> 0%nat
  /\ subscriptions 1%nat (unsubscribe 0%nat (subscribe 1%nat session)) = 1%nat.
Proof.
  assert (Hne : 1%nat <> 0%nat) by discriminate.
  split; [exact Hne|].
  exact (proj1 (unsubscribe_spares_the_others 0%nat 1%nat
                  (subscribe 1%nat session) (CallAdd (Obj photo)) Hne)).
Defined.

(** The empty array a panel read with [getUploads()] when it mounted is
    not the one bound after an upload and a removal of an id nobody has. *)
Lemma mutation_hands_out_new_reference_witness :
  is_mutation (CallDelete 42%float) = true
  /\ snd (perform (CallDelete 42%float)
            (performAll [CallSubscribe 0%nat; CallAdd (Obj photo)]
               (performAll [] initial)))
     = Returned
  /\ handed_out (performAll [] (@initial float)) 1%positive
  /\ getUploads
       (fst (perform (CallDelete 42%float)
               (performAll [CallSubscribe 0%nat; CallAdd (Obj photo)]
                  (performAll [] initial))))
     <> 1%positive.
Proof.
  assert (Hout : handed_out (performAll [] (@initial float)) 1%positive).
  { left. reflexivity. }
  split; [reflexivity|]. split; [reflexivity|]. split; [exact Hout|].
  exact (mutation_hands_out_new_reference
           [] [CallSubscribe 0%nat; CallAdd (Obj photo)] (CallDelete 42%float)
           1%positive eq_refl eq_refl Hout).
Defined.

(** A panel mounted on the empty store follows two uploads, a call
    without a record and a removal that throws. *)
Lemma mounted_panel_renders_current_witness :
  times_called 0%nat (calls (@initial float)) = 0%nat
  /\ forallb (fun c => negb (unsubscribes 0%nat c))
       [CallAdd (Obj photo); CallAdd Undefined; CallDelete (id photo);
        CallAdd (Obj logo)] = true
  /\ UploadPanel.rendered 0%nat (getUploads (@initial float))
       (calls (performAll
                 [CallAdd (Obj photo); CallAdd Undefined; CallDelete (id photo);
                  CallAdd (Obj logo)]
                 (subscribe 0%nat initial)))
     = 4%positive.
Proof.
  split; [reflexivity|]. split; [reflexivity|].
  exact (mounted_panel_renders_current 0%nat (@initial float)
           [CallAdd (Obj photo); CallAdd Undefined; CallDelete (id photo);
            CallAdd (Obj logo)] eq_refl eq_refl).
Defined.

(** The batch of three readers of [batch] on the mounted panel: two
    records, in settling order, and two calls of the panel. *)
Example batch_of_three_readers :
  List.map (fun u => match u with Obj r => name r | Undefined => [] end)
    (current (UploadPanel.handleFileUpload batch mounted))
  = [js "c.png"; js "a.png"]
  /\ times_called 0%nat (calls (UploadPanel.handleFileUpload batch mounted)) = 2%nat.
Proof. split; vm_compute; reflexivity. Qed.

(** The side panel made from [librarySections]. *)
Example library_sections_customised :
  List.map SidePanel.Panel (SidePanel.customSections librarySections)
  = [SidePanel.CustomUploadSection; SidePanel.Library 6; SidePanel.Library 7].
Proof. vm_compute. reflexivity. Qed.

(** A second click, on an image that fails to decode, leaves the element
    placed by the first click alone. *)
Example failed_click_keeps_canvas :
  elements (fst (addImageToCanvas (fun _ => ErrorEvent) (url logo) busyPage))
  = elements busyPage
  /\ length (elements busyPage) = 1%nat.
Proof. split; reflexivity. Qed.

(** X18.  As long as every [addUpload] is handed a record, the collection
    reached from the empty store holds records only, and [deleteUpload]
    returns normally for every id. *)
Theorem records_in_records_out {Id : Type} `{StrictEq Id}
    (cs : list (Call Id)) (i : Id) :
  forallb passes_record cs = true ->
  all_records (current (performAll cs initial)) = true
  /\ snd (deleteUpload i (performAll cs initial)) = Returned.
Proof.
  intros Hcs.
  assert (Hall : all_records (current (performAll cs (@initial Id))) = true).
  { apply all_records_performAll; [exact Hcs | reflexivity]. }
  split; [exact Hall|].
  destruct (all_records_inv _ Hall) as [rs Hrs].
  rewrite (deleteUpload_records i _ rs Hrs). reflexivity.
Qed.

Lemma records_in_records_out_witness :
  forallb passes_record
    [CallSubscribe 0%nat; CallAdd (Obj photo); CallDelete (id logo);
     CallAdd (Obj logo); CallUnsubscribe 0%nat] = true
  /\ snd (deleteUpload (id photo)
            (performAll
               [CallSubscribe 0%nat; CallAdd (Obj photo); CallDelete (id logo);
                CallAdd (Obj logo); CallUnsubscribe 0%nat] initial))
     = Returned.
Proof.
  split; [reflexivity|].
  exact (proj2 (records_in_records_out
                  [CallSubscribe 0%nat; CallAdd (Obj photo); CallDelete (id logo);
                   CallAdd (Obj logo); CallUnsubscribe 0%nat]
                  (id photo) eq_refl)).
Defined.
